(** * ai-interview-coach: audio codec, playback scheduler, transcript
      aggregation and live-session lifecycle

    A shallow embedding of [src/utils/audioUtils.ts],
    [src/services/geminiService.ts] and the session callbacks of
    [src/App.tsx], together with the properties the design document
    states about them.

    Conventions.
    - A JavaScript string is a [string]: a sequence of 8-bit code units.
      The "binary strings" handled by [atob]/[btoa] are exactly that.
    - A [Uint8Array] is a [list byte]; an [Int16Array] is a [list Z] whose
      elements lie in [-32768, 32767].
    - A JavaScript number is modelled by its exact rational value ([Q]).
      For the codec this is not an idealisation: a [Float32Array] element
      times [0x8000] or [0x7FFF] and an [Int16Array] element divided by
      [32768.0] are computed without rounding in binary64.  For the audio
      clock it leaves rounding of [+=] aside.  NaN is outside the model.
    - Observable effects (observer notifications, calls on device handles)
      are collected in traces returned next to the new state. *)

From Stdlib Require Import ZArith QArith Qminmax Qround Qabs Lia ZifyNat Lqa List Bool.
From Stdlib Require Import Strings.Ascii Strings.String Strings.Byte DecimalString.
From stdpp Require Import list.
Import ListNotations.

Local Open Scope Z_scope.

(* ------------------------------------------------------------------ *)
(** ** Platform: bytes, base64 ([btoa] / [atob]), typed arrays          *)
(* ------------------------------------------------------------------ *)

(** Value of a byte, in [0, 255]. *)
Definition byte_to_Z (b : byte) : Z := Z.of_N (Byte.to_N b).

(** Storing a number in a [Uint8Array] keeps it modulo 256. *)
Definition byte_of_Z (z : Z) : byte :=
  match Byte.of_N (Z.to_N (z mod 256)) with
  | Some b => b
  | None => x00
  end.

(** [String.fromCharCode(b)] and [s.charCodeAt(i)] on code units < 256. *)
Definition fromCharCode (b : byte) : ascii := ascii_of_byte b.
Definition charCodeAt (c : ascii) : byte := byte_of_ascii c.

Module Base64.

Definition alphabet : string :=
  "ABCDEFGHIJKLMNOPQRSTUVWXYZabcdefghijklmnopqrstuvwxyz0123456789+/".

Definition pad : ascii := "="%char.

Definition digit (n : N) : ascii :=
  match String.get (N.to_nat n) alphabet with
  | Some c => c
  | None => pad
  end.

Fixpoint index_of (c : ascii) (s : string) : option N :=
  match s with
  | EmptyString => None
  | String d s' =>
      if Ascii.eqb c d then Some 0%N else option_map N.succ (index_of c s')
  end.

Definition value (c : ascii) : option N := index_of c alphabet.

(** The sextets, 0 to 63. *)
Definition sextet_range : list N := List.map N.of_nat (seq 0 64).

(** Three octets give four sextets; a tail of one or two octets gives
    two or three. *)
Fixpoint sextets (bs : list N) : list N :=
  match bs with
  | a :: b :: c :: rest =>
      (a / 4 :: (a mod 4) * 16 + b / 16
         :: (b mod 16) * 4 + c / 64 :: c mod 64 :: sextets rest)%N
  | [a; b] => [a / 4; (a mod 4) * 16 + b / 16; (b mod 16) * 4]%N
  | [a] => [a / 4; (a mod 4) * 16]%N
  | [] => []
  end.

Fixpoint octets (sx : list N) : list N :=
  match sx with
  | p :: q :: r :: s :: rest =>
      (p * 4 + q / 16 :: (q mod 16) * 16 + r / 4
         :: (r mod 4) * 64 + s :: octets rest)%N
  | [p; q; r] => [p * 4 + q / 16; (q mod 16) * 16 + r / 4]%N
  | [p; q] => [p * 4 + q / 16]%N
  | _ => []
  end.

Definition padding (n : nat) : list ascii :=
  repeat pad ((3 - n mod 3) mod 3)%nat.

(** [btoa]: base64 of a binary string, padded to a multiple of four. *)
Definition btoa (binary : string) : string :=
  let bs := List.map N_of_ascii (list_ascii_of_string binary) in
  string_of_list_ascii
    (List.map digit (sextets bs) ++ padding (length bs)).

Definition is_ascii_whitespace (c : ascii) : bool :=
  let n := N_of_ascii c in
  ((n =? 9) || (n =? 10) || (n =? 12) || (n =? 13) || (n =? 32))%N.

Definition strip_padding (cs : list ascii) : list ascii :=
  match rev cs with
  | c1 :: c2 :: r =>
      if Ascii.eqb c1 pad
      then if Ascii.eqb c2 pad then rev r else rev (c2 :: r)
      else cs
  | [c1] => if Ascii.eqb c1 pad then [] else cs
  | [] => cs
  end.

Fixpoint values (cs : list ascii) : option (list N) :=
  match cs with
  | [] => Some []
  | c :: cs' =>
      match value c, values cs' with
      | Some v, Some vs => Some (v :: vs)
      | _, _ => None
      end
  end.

(** [atob]: the forgiving base64 decoder of browsers.  [None] stands
    for the [InvalidCharacterError] it throws. *)
Definition atob (base64 : string) : option string :=
  let cs :=
    List.filter (fun c => negb (is_ascii_whitespace c))
                (list_ascii_of_string base64) in
  let cs := if (length cs mod 4 =? 0)%nat then strip_padding cs else cs in
  if (length cs mod 4 =? 1)%nat then None
  else match values cs with
       | Some sx => Some (string_of_list_ascii (List.map ascii_of_N (octets sx)))
       | None => None
       end.

End Base64.

(* ------------------------------------------------------------------ *)
(** ** Numbers and typed arrays                                         *)
(* ------------------------------------------------------------------ *)

(** A JavaScript number that may be NaN (elements of a [Float32Array],
    results of reading past the end of a typed array). *)
Inductive number : Type :=
| NaN
| Num (q : Q).

Definition Float32Array := list number.

(** Exceptions the platform raises in the code below. *)
Inductive exn : Type :=
| InvalidCharacterError   (* atob on text that is not base64 *)
| RangeError              (* Int16Array over a buffer of odd byte length *)
| NotSupportedError       (* createBuffer with a zero or out-of-range argument *)
| TypeError.              (* method call on null *)

Definition Math_min (a : Q) (x : number) : number :=
  match x with NaN => NaN | Num q => Num (Qmin a q) end.

Definition Math_max (a : Q) (x : number) : number :=
  match x with NaN => NaN | Num q => Num (Qmax a q) end.

(** Truncation of a rational towards zero. *)
Definition Qtrunc (q : Q) : Z := Z.quot (Qnum q) (Zpos (Qden q)).

Definition wrap_int16 (n : Z) : Z :=
  let u := n mod 65536 in if u <? 32768 then u else u - 65536.

Definition is_int16 (v : Z) : Prop := -32768 <= v <= 32767.

(** A sample a decoded buffer may hold: a number from -1 to 32767/32768. *)
Definition in_unit_range (x : number) : Prop :=
  match x with
  | Num q => (-1 <= q)%Q /\ (q <= 32767 # 32768)%Q
  | NaN => False
  end.

(** Storing a number in an [Int16Array] (ToInt16): truncate, keep the low
    16 bits, read them as two's complement; NaN is stored as 0. *)
Definition ToInt16 (x : number) : Z :=
  match x with
  | NaN => 0
  | Num q => wrap_int16 (Qtrunc q)
  end.

(** One element of [new Int16Array(buffer)]: two bytes, low byte first. *)
Definition int16_of_bytes (lo hi : byte) : Z :=
  wrap_int16 (byte_to_Z lo + 256 * byte_to_Z hi).

(** [new Int16Array(data.buffer)]; [None] is the [RangeError] raised when
    the byte length is not a multiple of 2. *)
Fixpoint Int16Array_of_buffer (data : list byte) : option (list Z) :=
  match data with
  | [] => Some []
  | lo :: hi :: rest =>
      match Int16Array_of_buffer rest with
      | Some vs => Some (int16_of_bytes lo hi :: vs)
      | None => None
      end
  | [_] => None
  end.

(** The two bytes of one [Int16Array] element, low byte first. *)
Definition bytes_of_int16 (v : Z) : list byte :=
  [byte_of_Z v; byte_of_Z (v / 256)].

(** [new Uint8Array(int16Array.buffer)]. *)
Definition Uint8Array_of_int16 (vs : list Z) : list byte :=
  List.concat (List.map bytes_of_int16 vs).

(* ------------------------------------------------------------------ *)
(** ** audioUtils.ts: the PCM codec                                     *)
(* ------------------------------------------------------------------ *)

Record AudioBuffer : Type := mkAudioBuffer {
  numberOfChannels : Z;
  frames : Z;                               (* [AudioBuffer.length] *)
  sampleRate : Z;
  channels : list Float32Array              (* [getChannelData(c)] *)
}.

(** [AudioBuffer.duration], in seconds. *)
Definition duration (b : AudioBuffer) : Q :=
  inject_Z (frames b) / inject_Z (sampleRate b).

(** Browsers cap the channel count of a buffer at 32. *)
Definition maxChannels : Z := 32.

(** The sample rates a buffer can have, in Hz.  Web Audio obliges every
    implementation to support the rates from 8000 to 96000 and lets it
    support more; which rates beyond these are accepted differs from one
    browser to the next.  The model accepts the rates every
    implementation accepts and no others; what is proved about the
    failure of [createBuffer] is stated for rates in this range, where
    all implementations agree. *)
Definition minSampleRate : Z := 8000.
Definition maxSampleRate : Z := 96000.

(** [ctx.createBuffer(numChannels, frameCount, sampleRate)].  The frame
    count is converted to an unsigned integer by truncation; Web Audio
    raises [NotSupportedError] when an argument is zero, negative or out
    of range: a channel count above the maximum, a sample rate outside
    the supported range.  Channels start out filled with zeros. *)
Definition createBuffer (numChannels : Z) (frameCount : Q) (rate : Z)
  : exn + AudioBuffer :=
  let len := Qtrunc frameCount in
  if (numChannels <=? 0) || (maxChannels <? numChannels)
     || (len <=? 0)
     || (rate <? minSampleRate) || (maxSampleRate <? rate)
  then inl NotSupportedError
  else inr {| numberOfChannels := numChannels;
              frames := len;
              sampleRate := rate;
              channels := replicate (Z.to_nat numChannels)
                                    (replicate (Z.to_nat len) (Num 0)) |}.

(** [decode]: base64 text to bytes. *)
Definition decode (base64 : string) : exn + list byte :=
  match Base64.atob base64 with
  | None => inl InvalidCharacterError
  | Some binaryString =>
      inr (List.map charCodeAt (list_ascii_of_string binaryString))
  end.

(** [dataInt16[k] / 32768.0]; reading past the end gives [undefined],
    and [undefined / 32768.0] is NaN. *)
Definition sample_at (dataInt16 : list Z) (k : nat) : number :=
  match dataInt16 !! k with
  | Some v => Num (inject_Z v / 32768)
  | None => NaN
  end.

(** The inner loop of [decodeAudioData] for one channel:
    [for (i = 0; i < frameCount; i++) channelData[i] = ...], run for the
    [iters] values of [i] below [frameCount].  A store past the end of a
    typed array is dropped, as with [<[i:=x]>]. *)
Definition fill_channel (dataInt16 : list Z) (numChannels channel : nat)
  (iters : nat) (channelData : Float32Array) : Float32Array :=
  fold_left
    (fun cd i => <[i := sample_at dataInt16 (i * numChannels + channel)]> cd)
    (seq 0 iters) channelData.

(** The outer loop: [for (channel = 0; channel < numChannels; channel++)]. *)
Definition fill_channels (dataInt16 : list Z) (numChannels iters : nat)
  (chans : list Float32Array) : list Float32Array :=
  fold_left
    (fun cs channel =>
       match cs !! channel with
       | Some cd =>
           <[channel := fill_channel dataInt16 numChannels channel iters cd]> cs
       | None => cs
       end)
    (seq 0 numChannels) chans.

(** [decodeAudioData(data, ctx, sampleRate, numChannels)].  [frameCount]
    need not be whole: the buffer gets its integer part, while the loop
    [for (i = 0; i < frameCount; i++)] runs for every [i] below it, that
    is [Qceiling frameCount] times. *)
Definition decodeAudioData (data : list byte) (rate numChannels : Z)
  : exn + AudioBuffer :=
  match Int16Array_of_buffer data with
  | None => inl RangeError
  | Some dataInt16 =>
      let frameCount :=
        (inject_Z (Z.of_nat (length dataInt16)) / inject_Z numChannels)%Q in
      match createBuffer numChannels frameCount rate with
      | inl e => inl e
      | inr buffer =>
          inr {| numberOfChannels := numberOfChannels buffer;
                 frames := frames buffer;
                 sampleRate := sampleRate buffer;
                 channels :=
                   fill_channels dataInt16 (Z.to_nat numChannels)
                     (Z.to_nat (Qceiling frameCount)) (channels buffer) |}
      end
  end.

(** [float32ToPCM16]: clamp, scale, store as 16-bit integers, view the
    buffer as bytes, build the binary string and base64 it. *)
Definition quantize (x : number) : Z :=
  let s := Math_max (-1) (Math_min 1 x) in
  ToInt16 (match s with
           | NaN => NaN
           | Num q => if Qlt_le_dec q 0 then Num (q * 32768) else Num (q * 32767)
           end).

Definition float32ToPCM16 (float32Array : Float32Array) : string :=
  let int16Array := List.map quantize float32Array in
  let bytes := Uint8Array_of_int16 int16Array in
  let binary := string_of_list_ascii (List.map fromCharCode bytes) in
  Base64.btoa binary.

(** The sample a 16-bit value decodes to. *)
Definition dequantize (v : Z) : Q := (inject_Z v / 32768)%Q.

(** Encode a block of samples, then decode the result as mono audio. *)
Definition roundtrip (xs : Float32Array) (rate : Z) : exn + AudioBuffer :=
  match decode (float32ToPCM16 xs) with
  | inl e => inl e
  | inr bytes => decodeAudioData bytes rate 1
  end.

(** Output sample rate and channel count used by the player. *)
Definition OUTPUT_RATE : Z := 24000.


(* ------------------------------------------------------------------ *)
(** ** audioUtils.ts: [StreamAudioPlayer]                               *)
(* ------------------------------------------------------------------ *)

Module Player.

Record AudioContext : Type := { ctx_sampleRate : Z }.

(** A scheduled source node.  Nodes are objects compared by identity;
    the identity is the number [node_id]. *)
Record AudioBufferSourceNode : Type := mkNode {
  node_id : nat;
  buffer : AudioBuffer;
  startTime : Q                       (* argument of [source.start] *)
}.

(** What the player does to the outside world. *)
Inductive effect : Type :=
| CtxResume                           (* [audioContext.resume()] *)
| SourceStart (id : nat) (when : Q)   (* [source.start(when)] *)
| SourceStop (id : nat)               (* [source.stop()] *)
| PlayStateChange (playing : bool).   (* [onPlayStateChange(playing)] *)

Record StreamAudioPlayer : Type := mkPlayer {
  audioContext : option AudioContext;
  nextStartTime : Q;
  sources : list AudioBufferSourceNode;  (* a [Set], in insertion order *)
  isPlaying : bool;
  onPlayStateChange : bool;           (* was an observer passed in? *)
  created : nat                       (* source nodes created so far *)
}.

Definition new (observer : bool) : StreamAudioPlayer :=
  {| audioContext := None; nextStartTime := 0; sources := [];
     isPlaying := false; onPlayStateChange := observer; created := O |}.

(** [this.onPlayStateChange?.(b)] *)
Definition notify (p : StreamAudioPlayer) (b : bool) : list effect :=
  if onPlayStateChange p then [PlayStateChange b] else [].

(** [initContext]; [suspended] tells whether the context reports the
    state ['suspended']. *)
Definition initContext (suspended : bool) (p : StreamAudioPlayer)
  : StreamAudioPlayer * list effect :=
  let p' :=
    match audioContext p with
    | Some _ => p
    | None =>
        {| audioContext := Some {| ctx_sampleRate := OUTPUT_RATE |};
           nextStartTime := nextStartTime p; sources := sources p;
           isPlaying := isPlaying p;
           onPlayStateChange := onPlayStateChange p;
           created := created p |}
    end in
  (p', if suspended then [CtxResume] else []).

(** The part of [queueAudio] after the buffer has been decoded;
    [currentTime] is [ctx.currentTime]. *)
Definition schedule (currentTime : Q) (audioBuffer : AudioBuffer)
  (p : StreamAudioPlayer) : StreamAudioPlayer * list effect :=
  let start :=
    if Qlt_le_dec (nextStartTime p) currentTime
    then currentTime else nextStartTime p in
  let source :=
    {| node_id := created p; buffer := audioBuffer; startTime := start |} in
  ({| audioContext := audioContext p;
      nextStartTime := (start + duration audioBuffer)%Q;
      sources := sources p ++ [source];
      isPlaying := true;
      onPlayStateChange := onPlayStateChange p;
      created := S (created p) |},
   SourceStart (node_id source) start
     :: (if isPlaying p then [] else notify p true)).

(** [queueAudio(base64Audio)].  The third component is the exception
    that rejects the returned promise, if any. *)
Definition queueAudio (currentTime : Q) (suspended : bool)
  (base64Audio : string) (p : StreamAudioPlayer)
  : StreamAudioPlayer * list effect * option exn :=
  let '(p0, e0) := initContext suspended p in
  match decode base64Audio with
  | inl e => (p0, e0, Some e)
  | inr audioBytes =>
      match decodeAudioData audioBytes OUTPUT_RATE 1 with
      | inl e => (p0, e0, Some e)
      | inr audioBuffer =>
          let '(p1, e1) := schedule currentTime audioBuffer p0 in
          (p1, e0 ++ e1, None)
      end
  end.

(** The [onended] handler installed on the source [id]. *)
Definition onended (id : nat) (p : StreamAudioPlayer)
  : StreamAudioPlayer * list effect :=
  let remaining :=
    List.filter (fun s => negb (Nat.eqb (node_id s) id)) (sources p) in
  if Nat.eqb (length remaining) 0
  then ({| audioContext := audioContext p;
           nextStartTime := nextStartTime p;
           sources := remaining;
           isPlaying := false;
           onPlayStateChange := onPlayStateChange p;
           created := created p |},
        notify p false)
  else ({| audioContext := audioContext p;
           nextStartTime := nextStartTime p;
           sources := remaining;
           isPlaying := isPlaying p;
           onPlayStateChange := onPlayStateChange p;
           created := created p |},
        []).

(** [stop()] *)
Definition stop (p : StreamAudioPlayer) : StreamAudioPlayer * list effect :=
  ({| audioContext := audioContext p;
      nextStartTime := 0;
      sources := [];
      isPlaying := false;
      onPlayStateChange := onPlayStateChange p;
      created := created p |},
   List.map (fun s => SourceStop (node_id s)) (sources p) ++ notify p false).

(** Scheduler operations, for sequences of calls. *)
Inductive op : Type :=
| QueueAudio (currentTime : Q) (suspended : bool) (base64Audio : string)
| Stop.

Definition apply (o : op) (p : StreamAudioPlayer) : StreamAudioPlayer :=
  match o with
  | QueueAudio t susp a => fst (fst (queueAudio t susp a p))
  | Stop => fst (stop p)
  end.

(** The states the player goes through under a sequence of operations,
    the initial one included. *)
Fixpoint states (ops : list op) (p : StreamAudioPlayer)
  : list StreamAudioPlayer :=
  match ops with
  | [] => [p]
  | o :: rest => p :: states rest (apply o p)
  end.

(** A list of clock values that never goes down. *)
Fixpoint nondecreasing (ts : list Q) : Prop :=
  match ts with
  | a :: (b :: _) as rest => (a <= b)%Q /\ nondecreasing rest
  | _ => True
  end.

Definition cursors (ops : list op) (p : StreamAudioPlayer) : list Q :=
  List.map nextStartTime (states ops p).

Fixpoint no_stop (ops : list op) : bool :=
  match ops with
  | [] => true
  | Stop :: _ => false
  | QueueAudio _ _ _ :: rest => no_stop rest
  end.

(** Consecutive nodes start where the previous one ends, the first one
    at [c]. *)
Fixpoint chained (c : Q) (ns : list AudioBufferSourceNode) : Prop :=
  match ns with
  | [] => True
  | n :: rest =>
      (startTime n == c)%Q
      /\ chained (startTime n + duration (buffer n))%Q rest
  end.

(** The start time [queueAudio] passes to [source.start]. *)
Definition start_of (t : Q) (p : StreamAudioPlayer) : Q :=
  if Qlt_le_dec (nextStartTime p) t then t else nextStartTime p.

(** The buffer [queueAudio] obtains from a chunk, if it decodes. *)
Definition decoded (base64Audio : string) : option AudioBuffer :=
  match decode base64Audio with
  | inr audioBytes =>
      match decodeAudioData audioBytes OUTPUT_RATE 1 with
      | inr b => Some b
      | inl _ => None
      end
  | inl _ => None
  end.

(** Calls to [queueAudio], each with its clock reading. *)
Definition call : Type := (Q * bool * string)%type.

Definition queue (c : call) (p : StreamAudioPlayer) : StreamAudioPlayer :=
  let '(t, susp, a) := c in apply (QueueAudio t susp a) p.

Definition queueAll (cs : list call) (p : StreamAudioPlayer)
  : StreamAudioPlayer :=
  fold_left (fun p c => queue c p) cs p.

(** The chunk of a call decodes, and the call arrives no later than the
    end of what is already scheduled. *)
Fixpoint back_to_back (cs : list call) (p : StreamAudioPlayer) : Prop :=
  match cs with
  | [] => True
  | (t, susp, a) :: rest =>
      snd (queueAudio t susp a p) = None
      /\ (t <= nextStartTime p)%Q
      /\ back_to_back rest (apply (QueueAudio t susp a) p)
  end.

End Player.

(* ------------------------------------------------------------------ *)
(** ** types.ts                                                         *)
(* ------------------------------------------------------------------ *)

Inductive Speaker : Type := User | Coach.

Definition Speaker_eqb (a b : Speaker) : bool :=
  match a, b with
  | User, User | Coach, Coach => true
  | _, _ => false
  end.

Record Message : Type := mkMessage {
  id : string;
  speaker : Speaker;
  text : string;
  timestamp : Z
}.

Record SessionState : Type := mkSessionState {
  isActive : bool;
  isProcessing : bool;
  isSpeaking : bool
}.

(* ------------------------------------------------------------------ *)
(** ** geminiService.ts: [LiveSessionService]                           *)
(* ------------------------------------------------------------------ *)

Module Session.

(** The device handles the service holds. *)
Inductive device : Type :=
| Microphone        (* [this.stream], released by stopping its tracks *)
| ScriptProcessor   (* [this.processor], released by [disconnect()] *)
| InputContext.     (* [this.inputAudioContext], released by [close()] *)

(** [LiveSessionCallbacks] ([onVolumeUpdate] is only invoked by the
    capture callback, which is not part of this model). *)
Inductive callback : Type :=
| OnAudioData (base64Data : string)
| OnTranscriptUpdate (who : Speaker) (fragment : string) (isFinal : bool)
| OnClose.

Inductive effect : Type :=
| Acquire (d : device)
| Release (d : device)
| SessionClose                 (* [activeSession.close()] *)
| Call (c : callback).

Inductive LiveSession : Type := liveSession.
Inductive AudioContextHandle : Type := audioContextHandle.
Inductive MediaStream : Type := mediaStream.
Inductive ScriptProcessorNode : Type := scriptProcessorNode.

Record LiveSessionService : Type := mkService {
  activeSession : option LiveSession;
  inputAudioContext : option AudioContextHandle;
  stream : option MediaStream;
  processor : option ScriptProcessorNode;
  isConnected : bool
}.

Definition new : LiveSessionService :=
  {| activeSession := None; inputAudioContext := None; stream := None;
     processor := None; isConnected := false |}.

(** The relevant part of a [LiveServerMessage]. *)
Record LiveServerMessage : Type := mkServerMessage {
  inlineData : option string;          (* modelTurn.parts[0].inlineData.data *)
  outputTranscription : option string; (* outputTranscription.text *)
  inputTranscription : option string   (* inputTranscription.text *)
}.

(** A string in a condition: present and not empty. *)
Definition truthy (o : option string) : option string :=
  match o with
  | Some EmptyString => None
  | other => other
  end.

(** [cleanup()] *)
Definition cleanup (s : LiveSessionService)
  : LiveSessionService * list effect :=
  ({| activeSession := activeSession s;
      inputAudioContext := None; stream := None; processor := None;
      isConnected := isConnected s |},
   (match stream s with Some _ => [Release Microphone] | None => [] end)
     ++ (match processor s with
         | Some _ => [Release ScriptProcessor] | None => [] end)
     ++ (match inputAudioContext s with
         | Some _ => [Release InputContext] | None => [] end)).

(** [disconnect()] *)
Definition disconnect (s : LiveSessionService)
  : LiveSessionService * list effect :=
  let e1 :=
    match activeSession s with Some _ => [SessionClose] | None => [] end in
  let '(s', e2) :=
    cleanup {| activeSession := None;
               inputAudioContext := inputAudioContext s;
               stream := stream s; processor := processor s;
               isConnected := false |} in
  (s', e1 ++ e2 ++ [Call OnClose]).

(** [handleMessage(message)] *)
Definition handleMessage (m : LiveServerMessage) : list effect :=
  (match truthy (inlineData m) with
   | Some audioData => [Call (OnAudioData audioData)] | None => [] end)
    ++ (match truthy (outputTranscription m) with
        | Some t => [Call (OnTranscriptUpdate Coach t false)] | None => [] end)
    ++ (match truthy (inputTranscription m) with
        | Some t => [Call (OnTranscriptUpdate User t false)] | None => [] end).

(** The second half of [startAudioPipeline], from
    [createMediaStreamSource] on.  Calling a method on a field that is
    null raises [TypeError]. *)
Definition createPipeline (s : LiveSessionService)
  : exn + LiveSessionService * list effect :=
  match inputAudioContext s, stream s with
  | Some _, Some _ =>
      inr ({| activeSession := activeSession s;
              inputAudioContext := inputAudioContext s;
              stream := stream s;
              processor := Some scriptProcessorNode;
              isConnected := isConnected s |},
           [Acquire ScriptProcessor])
  | _, _ => inl TypeError
  end.

(** Where the [connect()] coroutine is suspended. *)
Inductive connect_pc : Type :=
| NotStarted
| AwaitingMic        (* [await getUserMedia(...)] *)
| AwaitingSession    (* [await sessionPromise] *)
| AwaitingResume     (* [await this.inputAudioContext.resume()] *)
| Finished.

(** One service instance together with its pending [connect()]. *)
Record lifecycle : Type := mkLifecycle {
  svc : LiveSessionService;
  pc : connect_pc
}.

Definition init : lifecycle := {| svc := new; pc := NotStarted |}.

(** What can happen to an instance.  [connect()] is called once, on a
    fresh instance. *)
Inductive event : Type :=
| Connect (contextCreated : bool)  (* [connect()], up to the first await *)
| MicGranted
| MicDenied
| SessionOpened (suspended : bool)
| SessionFailed
| Resumed
| ResumeFailed
| Disconnect                       (* [disconnect()] called by the app *)
| RemoteClose                      (* the transport's [onclose] *)
| TransportError                   (* the transport's [onerror] *)
| ServerMessage (m : LiveServerMessage).

(** Have the transport callbacks been registered ([ai.live.connect]
    called)? *)
Definition wired (c : connect_pc) : bool :=
  match c with
  | AwaitingSession | AwaitingResume | Finished => true
  | NotStarted | AwaitingMic => false
  end.

(** Run [disconnect()] and continue at [c]. *)
Definition teardown (l : lifecycle) (c : connect_pc)
  : option (lifecycle * list effect) :=
  let '(s, eff) := disconnect (svc l) in
  Some ({| svc := s; pc := c |}, eff).

Definition step (l : lifecycle) (e : event)
  : option (lifecycle * list effect) :=
  let s := svc l in
  match e, pc l with
  | Connect ok, NotStarted =>
      let s1 := {| activeSession := activeSession s;
                   inputAudioContext := inputAudioContext s;
                   stream := stream s; processor := processor s;
                   isConnected := true |} in
      if ok
      then Some ({| svc := {| activeSession := activeSession s1;
                              inputAudioContext := Some audioContextHandle;
                              stream := stream s1;
                              processor := processor s1;
                              isConnected := isConnected s1 |};
                    pc := AwaitingMic |},
                 [Acquire InputContext])
      else teardown {| svc := s1; pc := NotStarted |} Finished
  | MicGranted, AwaitingMic =>
      Some ({| svc := {| activeSession := activeSession s;
                         inputAudioContext := inputAudioContext s;
                         stream := Some mediaStream;
                         processor := processor s;
                         isConnected := isConnected s |};
               pc := AwaitingSession |},
            [Acquire Microphone])
  | MicDenied, AwaitingMic => teardown l Finished
  | SessionOpened suspended, AwaitingSession =>
      let s1 := {| activeSession := Some liveSession;
                   inputAudioContext := inputAudioContext s;
                   stream := stream s; processor := processor s;
                   isConnected := isConnected s |} in
      if isConnected s1
      then match inputAudioContext s1, stream s1 with
           | Some _, Some _ =>
               if suspended
               then Some ({| svc := s1; pc := AwaitingResume |}, [])
               else match createPipeline s1 with
                    | inr (s2, eff) => Some ({| svc := s2; pc := Finished |}, eff)
                    | inl _ => teardown {| svc := s1; pc := Finished |} Finished
                    end
           | _, _ => Some ({| svc := s1; pc := Finished |}, [])
           end
      else Some ({| svc := s1; pc := Finished |}, [SessionClose])
  | SessionFailed, AwaitingSession => teardown l Finished
  | Resumed, AwaitingResume =>
      match createPipeline s with
      | inr (s2, eff) => Some ({| svc := s2; pc := Finished |}, eff)
      | inl _ => teardown l Finished
      end
  | ResumeFailed, AwaitingResume => teardown l Finished
  | Disconnect, c => teardown l c
  | RemoteClose, c => if wired c then teardown l c else None
  | TransportError, c => if wired c then teardown l c else None
  | ServerMessage m, c =>
      if wired c then Some (l, handleMessage m) else None
  | _, _ => None
  end.

(** Does the event run [disconnect()] in this state? *)
Definition tears_down (l : lifecycle) (e : event) : bool :=
  match e, pc l with
  | Connect ok, NotStarted => negb ok
  | MicDenied, AwaitingMic => true
  | SessionFailed, AwaitingSession => true
  | Resumed, AwaitingResume =>
      match createPipeline (svc l) with inl _ => true | inr _ => false end
  | ResumeFailed, AwaitingResume => true
  | Disconnect, _ => true
  | RemoteClose, c => wired c
  | TransportError, c => wired c
  | _, _ => false
  end.

(** A sequence of events, with the effects it produced in order. *)
Fixpoint run (evs : list event) (l : lifecycle)
  : option (lifecycle * list effect) :=
  match evs with
  | [] => Some (l, [])
  | e :: rest =>
      match step l e with
      | Some (l1, eff1) =>
          match run rest l1 with
          | Some (l2, eff2) => Some (l2, eff1 ++ eff2)
          | None => None
          end
      | None => None
      end
  end.

(** Number of events of the sequence that ran [disconnect()]. *)
Fixpoint teardowns (evs : list event) (l : lifecycle) : nat :=
  match evs with
  | [] => O
  | e :: rest =>
      match step l e with
      | Some (l1, _) =>
          ((if tears_down l e then 1 else 0) + teardowns rest l1)%nat
      | None => O
      end
  end.

Definition effect_eqb (a b : effect) : bool :=
  match a, b with
  | Acquire Microphone, Acquire Microphone
  | Acquire ScriptProcessor, Acquire ScriptProcessor
  | Acquire InputContext, Acquire InputContext
  | Release Microphone, Release Microphone
  | Release ScriptProcessor, Release ScriptProcessor
  | Release InputContext, Release InputContext
  | SessionClose, SessionClose
  | Call OnClose, Call OnClose => true
  | _, _ => false
  end.

(** How often [e] (a device or close effect) occurs in a trace. *)
Definition count (e : effect) (tr : list effect) : nat :=
  length (List.filter (effect_eqb e) tr).

(** Is the handle of device [d] held? *)
Definition held (d : device) (s : LiveSessionService) : bool :=
  match d with
  | Microphone => match stream s with Some _ => true | None => false end
  | ScriptProcessor =>
      match processor s with Some _ => true | None => false end
  | InputContext =>
      match inputAudioContext s with Some _ => true | None => false end
  end.

(** How many acquisitions of [d] the [connect()] coroutine can have
    performed when it is suspended at [c]. *)
Definition budget (c : connect_pc) (d : device) : nat :=
  match c, d with
  | NotStarted, _ => 0
  | AwaitingMic, InputContext => 1
  | AwaitingMic, _ => 0
  | (AwaitingSession | AwaitingResume), ScriptProcessor => 0
  | (AwaitingSession | AwaitingResume), _ => 1
  | Finished, _ => 1
  end.

(** Bookkeeping of the handles along a trace: each device was acquired
    at most as often as [connect()] got to, and is held exactly when it
    was acquired once more than released. *)
Definition balanced (l : lifecycle) (tr : list effect) : Prop :=
  forall d,
    (count (Acquire d) tr <= budget (pc l) d)%nat
    /\ (count (Release d) tr + (if held d (svc l) then 1 else 0)
        = count (Acquire d) tr)%nat.

End Session.

(* ------------------------------------------------------------------ *)
(** ** App.tsx: transcript aggregation and session callbacks            *)
(* ------------------------------------------------------------------ *)

Module App.

(** White space removed by [String.prototype.trim], among the code
    units below 256: TAB, LF, VT, FF, CR, SPACE and NBSP. *)
Definition isWhiteSpace (c : ascii) : bool :=
  let n := N_of_ascii c in
  ((n =? 9) || (n =? 10) || (n =? 11) || (n =? 12) || (n =? 13)
   || (n =? 32) || (n =? 160))%N.

Fixpoint trimStart (cs : list ascii) : list ascii :=
  match cs with
  | c :: cs' => if isWhiteSpace c then trimStart cs' else cs
  | [] => []
  end.

(** [text.trim()] *)
Definition trim (t : string) : string :=
  string_of_list_ascii
    (rev (trimStart (rev (trimStart (list_ascii_of_string t))))).

(** [!s] on a string: true exactly for the empty string. *)
Definition falsy (t : string) : bool :=
  match t with EmptyString => true | String _ _ => false end.

(** [Date.now().toString()] *)
Definition toString (n : Z) : string := NilZero.string_of_int (Z.to_int n).

(** The two readings of [Date.now()] in [addMessageToHistory], the
    audio clock [ctx.currentTime] and the state of the output context,
    as found by a handler when it runs. *)
Record env : Type := mkEnv {
  now_id : Z;
  now_timestamp : Z;
  currentTime : Q;
  suspended : bool
}.

Record state : Type := mkState {
  messages : list Message;
  currentTranscript : option (Speaker * string);
  sessionState : SessionState;
  audioPlayer : Player.StreamAudioPlayer;        (* audioPlayerRef.current *)
  liveSession : option Session.lifecycle         (* liveSessionRef.current *)
}.

Definition idle : SessionState :=
  {| isActive := false; isProcessing := false; isSpeaking := false |}.

(** The component after mounting: the player is constructed with the
    observer that copies [isPlaying] into [sessionState.isSpeaking]. *)
Definition initial : state :=
  {| messages := []; currentTranscript := None; sessionState := idle;
     audioPlayer := Player.new true; liveSession := None |}.

(** [addMessageToHistory(speaker, text)] *)
Definition addMessageToHistory (e : env) (who : Speaker) (t : string)
  (st : state) : state :=
  if falsy (trim t) then st
  else {| messages :=
            messages st ++ [ {| id := toString (now_id e);
                                speaker := who;
                                text := t;
                                timestamp := now_timestamp e |} ];
          currentTranscript := currentTranscript st;
          sessionState := sessionState st;
          audioPlayer := audioPlayer st;
          liveSession := liveSession st |}.

Definition setCurrentTranscript (c : option (Speaker * string))
  (st : state) : state :=
  {| messages := messages st; currentTranscript := c;
     sessionState := sessionState st; audioPlayer := audioPlayer st;
     liveSession := liveSession st |}.

Definition setSessionState (ss : SessionState) (st : state) : state :=
  {| messages := messages st; currentTranscript := currentTranscript st;
     sessionState := ss; audioPlayer := audioPlayer st;
     liveSession := liveSession st |}.

(** The [onTranscriptUpdate] callback. *)
Definition onTranscriptUpdate (e : env) (who : Speaker) (t : string)
  (isFinal : bool) (st : state) : state :=
  match currentTranscript st with
  | Some (prevSpeaker, prevText) =>
      if Speaker_eqb prevSpeaker who
      then setCurrentTranscript (Some (who, (prevText ++ t)%string)) st
      else setCurrentTranscript (Some (who, t))
             (addMessageToHistory e prevSpeaker prevText st)
  | None => setCurrentTranscript (Some (who, t)) st
  end.

(** The player's observer:
    [setSessionState(prev => ({...prev, isSpeaking: isPlaying}))]. *)
Definition observe (effs : list Player.effect) (ss : SessionState)
  : SessionState :=
  fold_left
    (fun ss eff =>
       match eff with
       | Player.PlayStateChange b =>
           {| isActive := isActive ss; isProcessing := isProcessing ss;
              isSpeaking := b |}
       | _ => ss
       end)
    effs ss.

Definition withPlayer (r : Player.StreamAudioPlayer * list Player.effect)
  (st : state) : state :=
  {| messages := messages st; currentTranscript := currentTranscript st;
     sessionState := observe (snd r) (sessionState st);
     audioPlayer := fst r; liveSession := liveSession st |}.

(** [audioPlayerRef.current?.stop()] *)
Definition stopPlayer (st : state) : state :=
  withPlayer (Player.stop (audioPlayer st)) st.

(** The [onAudioData] callback; a rejected promise is not handled. *)
Definition onAudioData (e : env) (base64Data : string) (st : state)
  : state :=
  withPlayer
    (fst (Player.queueAudio (currentTime e) (suspended e) base64Data
            (audioPlayer st)))
    st.

(** The [onClose] callback. *)
Definition onClose (st : state) : state :=
  stopPlayer (setSessionState idle st).

Definition callback (e : env) (c : Session.callback) (st : state) : state :=
  match c with
  | Session.OnAudioData d => onAudioData e d st
  | Session.OnTranscriptUpdate who t isFinal =>
      onTranscriptUpdate e who t isFinal st
  | Session.OnClose => onClose st
  end.

(** Run the callbacks a service invoked, in order. *)
Definition deliver (e : env) (effs : list Session.effect) (st : state)
  : state :=
  fold_left
    (fun st eff =>
       match eff with
       | Session.Call c => callback e c st
       | _ => st
       end)
    effs st.

Definition setLiveSession (l : option Session.lifecycle) (st : state)
  : state :=
  {| messages := messages st; currentTranscript := currentTranscript st;
     sessionState := sessionState st; audioPlayer := audioPlayer st;
     liveSession := l |}.

(** [handleStartSession], up to the first await of [connect()]. *)
Definition handleStartSession (e : env) (contextCreated : bool)
  (st : state) : state :=
  let st1 :=
    setSessionState
      {| isActive := true; isProcessing := false; isSpeaking := false |}
      (setCurrentTranscript None
         {| messages := []; currentTranscript := currentTranscript st;
            sessionState := sessionState st;
            audioPlayer := audioPlayer st;
            liveSession := liveSession st |}) in
  match Session.step Session.init (Session.Connect contextCreated) with
  | Some (l, effs) => deliver e effs (setLiveSession (Some l) st1)
  | None => st1
  end.

(** An event of the transport or of the pending [connect()] reaching
    the current service instance. *)
Definition transport (e : env) (ev : Session.event) (st : state) : state :=
  match liveSession st with
  | Some l =>
      match Session.step l ev with
      | Some (l', effs) => deliver e effs (setLiveSession (Some l') st)
      | None => st
      end
  | None => st
  end.

(** [handleEndSession] *)
Definition handleEndSession (e : env) (st : state) : state :=
  let st1 :=
    match liveSession st with
    | Some l =>
        let '(s, effs) := Session.disconnect (Session.svc l) in
        setLiveSession None (deliver e effs st)
    | None => st
    end in
  setCurrentTranscript None (setSessionState idle (stopPlayer st1)).

(** Text fragments arriving for a speaker, in order. *)
Fixpoint deltas (e : env) (ds : list (Speaker * string)) (st : state)
  : state :=
  match ds with
  | [] => st
  | (who, t) :: rest => deltas e rest (onTranscriptUpdate e who t false st)
  end.

(** The committed utterances, as (speaker, text) pairs. *)
Definition history (st : state) : list (Speaker * string) :=
  List.map (fun m => (speaker m, text m)) (messages st).

End App.

(* ------------------------------------------------------------------ *)
(** ** Vocabulary for further properties of the codec                   *)
(* ------------------------------------------------------------------ *)

(** Samples of an interleaved 16-bit payload, split by channel: sample
    [i] of channel [c] is element [i * numChannels + c], rescaled. *)
Definition deinterleave (vs : list Z) (numChannels nframes : nat)
  : list Float32Array :=
  List.map
    (fun c =>
       List.map (fun i => Num (dequantize (nth (i * numChannels + c) vs 0)))
                (seq 0 nframes))
    (seq 0 numChannels).

(* ------------------------------------------------------------------ *)
(** ** The player under everything that can happen to it                *)
(* ------------------------------------------------------------------ *)

Module PlayerRun.

Import Player.

(** A call of [queueAudio], the [onended] of a source, or a call of
    [stop]. *)
Inductive event : Type :=
| Queue (currentTime : Q) (suspended : bool) (base64Audio : string)
| Ended (id : nat)
| Stopped.

Definition fire (ev : event) (p : StreamAudioPlayer)
  : StreamAudioPlayer * list effect :=
  match ev with
  | Queue t susp a => fst (queueAudio t susp a p)
  | Ended id => onended id p
  | Stopped => stop p
  end.

Fixpoint play (evs : list event) (p : StreamAudioPlayer)
  : StreamAudioPlayer * list effect :=
  match evs with
  | [] => (p, [])
  | ev :: rest =>
      let '(p1, e1) := fire ev p in
      let '(p2, e2) := play rest p1 in
      (p2, e1 ++ e2)
  end.

(** When a scheduled source finishes playing. *)
Definition finish (n : AudioBufferSourceNode) : Q :=
  (startTime n + duration (buffer n))%Q.

(** The playing flag says whether the active set is non-empty, and the
    active sources are distinct objects created by this player. *)
Definition active_consistent (p : StreamAudioPlayer) : Prop :=
  (isPlaying p = true <-> sources p <> [])
  /\ NoDup (List.map node_id (sources p))
  /\ Forall (fun n => (node_id n < created p)%nat) (sources p).

(** Each source finishes before any source scheduled after it starts. *)
Fixpoint in_sequence (ns : list AudioBufferSourceNode) : Prop :=
  match ns with
  | [] => True
  | n :: rest =>
      Forall (fun m => (finish n <= startTime m)%Q) rest /\ in_sequence rest
  end.

(** The active sources play one after the other, each for a positive
    time, and none of them extends past the cursor. *)
Definition non_overlapping (p : StreamAudioPlayer) : Prop :=
  in_sequence (sources p)
  /\ Forall (fun n => (startTime n < finish n)%Q
                      /\ (finish n <= nextStartTime p)%Q)
            (sources p).

End PlayerRun.

(* ------------------------------------------------------------------ *)
(** ** geminiService.ts: the capture callback and lifecycle invariants  *)
(* ------------------------------------------------------------------ *)

Module Capture.

Import Session.

Definition num_add (a b : number) : number :=
  match a, b with
  | Num x, Num y => Num (x + y)
  | _, _ => NaN
  end.

Definition num_mul (a b : number) : number :=
  match a, b with
  | Num x, Num y => Num (x * y)
  | _, _ => NaN
  end.

(** The loop [sumSquares += inputData[i] * inputData[i]] (sums are exact
    here). *)
Definition sumSquares (inputData : Float32Array) : number :=
  fold_left (fun acc x => num_add acc (num_mul x x)) inputData (Num 0).

(** [sumSquares / inputData.length]; 0 / 0 is NaN. *)
Definition meanSquare (inputData : Float32Array) : number :=
  match sumSquares inputData, inputData with
  | Num total, _ :: _ =>
      Num (total / inject_Z (Z.of_nat (length inputData)))
  | _, _ => NaN
  end.

(** What the capture callback does to the outside.  The argument passed
    to [onVolumeUpdate] is [Math.sqrt(square)]; the model records the
    number under the root. *)
Inductive effect : Type :=
| OnVolumeUpdate (square : number)
| SendRealtimeInput (mimeType data : string).

(** The [onaudioprocess] handler installed by [startAudioPipeline].  An
    exception of [sendRealtimeInput] is caught and logged. *)
Definition onaudioprocess (s : LiveSessionService)
  (inputData : Float32Array) : list effect :=
  if negb (isConnected s) then []
  else match activeSession s with
       | None => []
       | Some _ =>
           [OnVolumeUpdate (meanSquare inputData);
            SendRealtimeInput "audio/pcm;rate=16000"
                              (float32ToPCM16 inputData)]
       end.

(** The sum of the squares of a list of rationals. *)
Fixpoint sum_sq (xs : list Q) : Q :=
  match xs with
  | [] => 0
  | x :: rest => x * x + sum_sq rest
  end.

Definition is_some {A} (o : option A) : bool :=
  match o with Some _ => true | None => false end.

(** What holds of a service instance wherever its [connect()] stands. *)
Definition well_formed (l : lifecycle) : bool :=
  let s := svc l in
  let untouched :=
    is_some (activeSession s) && is_some (inputAudioContext s)
    && is_some (stream s) in
  match pc l with
  | NotStarted =>
      negb (is_some (processor s)) && negb (is_some (stream s))
      && negb (is_some (inputAudioContext s))
      && negb (is_some (activeSession s))
  | AwaitingMic =>
      negb (is_some (processor s)) && negb (is_some (stream s))
      && negb (is_some (activeSession s))
      && implb (isConnected s) (is_some (inputAudioContext s))
  | AwaitingSession =>
      negb (is_some (processor s)) && negb (is_some (activeSession s))
      && implb (isConnected s)
               (is_some (inputAudioContext s) && is_some (stream s))
  | AwaitingResume =>
      negb (is_some (processor s))
      && (if isConnected s then untouched
          else negb (is_some (inputAudioContext s))
               && negb (is_some (stream s)))
  | Finished =>
      implb (is_some (processor s)) (isConnected s && untouched)
  end.

(** A torn-down instance whose [connect()] has been called. *)
Definition closed (l : lifecycle) : bool :=
  let s := svc l in
  negb (isConnected s) && negb (is_some (processor s))
  && match pc l with
     | NotStarted => false
     | AwaitingResume =>
         negb (is_some (inputAudioContext s)) || negb (is_some (stream s))
     | _ => true
     end.

End Capture.

(* ------------------------------------------------------------------ *)
(** ** App.tsx: what is displayed, and the handlers in sequence         *)
(* ------------------------------------------------------------------ *)

Module AppRun.

Import App.

(** [displayCoachText]: the coach's open utterance, else the text of the
    last committed coach message, else undefined. *)
Definition displayCoachText (st : state) : option string :=
  match currentTranscript st with
  | Some (Coach, t) => Some t
  | _ =>
      option_map text
        (List.find (fun m => Speaker_eqb (speaker m) Coach)
                   (rev (messages st)))
  end.

(** The [messages] prop handed to [Transcript]: the history followed by
    the open utterance, if any; [now] is the reading of [Date.now()]. *)
Definition transcriptMessages (now : Z) (st : state) : list Message :=
  messages st
    ++ match currentTranscript st with
       | Some (who, t) =>
           [ {| id := "current"; speaker := who; text := t;
                timestamp := now |} ]
       | None => []
       end.

(** The [onended] handler of a source of the application's player. *)
Definition onSourceEnded (id : nat) (st : state) : state :=
  withPlayer (Player.onended id (audioPlayer st)) st.

(** What can happen to the mounted component. *)
Inductive action : Type :=
| StartSession (contextCreated : bool)    (* the Start button *)
| EndSession                              (* the End button *)
| Transport (ev : Session.event)
| SourceEnded (id : nat).

Definition act (e : env) (a : action) (st : state) : state :=
  match a with
  | StartSession ok => handleStartSession e ok st
  | EndSession => handleEndSession e st
  | Transport ev => transport e ev st
  | SourceEnded id => onSourceEnded id st
  end.

(** Actions in sequence, each with the clock readings it finds. *)
Fixpoint acts (steps : list (env * action)) (st : state) : state :=
  match steps with
  | [] => st
  | (e, a) :: rest => acts rest (act e a st)
  end.

(** Text that [addMessageToHistory] refuses. *)
Definition blank (t : string) : bool := falsy (trim t).

(** Fragments grouped into maximal runs of one speaker, the texts of a
    run concatenated. *)
Fixpoint runs (ds : list (Speaker * string)) : list (Speaker * string) :=
  match ds with
  | [] => []
  | (s, t) :: rest =>
      match runs rest with
      | (s', t') :: more =>
          if Speaker_eqb s s' then (s, (t ++ t')%string) :: more
          else (s, t) :: (s', t') :: more
      | [] => [(s, t)]
      end
  end.

(** Texts put one after the other. *)
Definition joined (ts : list string) : string :=
  fold_right String.append EmptyString ts.

(** Is [StartSession] absent from the steps? *)
Fixpoint same_session (steps : list (env * action)) : bool :=
  match steps with
  | [] => true
  | (_, StartSession _) :: _ => false
  | _ :: rest => same_session rest
  end.

(** The history grows by messages that are not blank. *)
Definition grows (st st' : state) : Prop :=
  exists added,
    messages st' = messages st ++ added
    /\ Forall (fun m => blank (text m) = false) added.

(** The last element of a list, if any. *)
Fixpoint final {A} (l : list A) : option A :=
  match l with
  | [] => None
  | [x] => Some x
  | _ :: rest => final rest
  end.

End AppRun.

(* ------------------------------------------------------------------ *)
(** * The camera preview (src/components/Visualizer.tsx, [UserCamera]) *)
(* ------------------------------------------------------------------ *)

Module Camera.

(** What the effect of [UserCamera] does to the outside world. *)
Inductive effect : Type :=
| GetUserMedia   (* navigator.mediaDevices.getUserMedia({video, audio}) *)
| SetSrcObject   (* videoRef.current.srcObject = stream                  *)
| StopTracks     (* stream.getTracks().forEach(track => track.stop())    *)
| ConsoleError.  (* console.error("Error accessing camera:", err)        *)

(** One mounted instance of the component: the closure variable [stream]
    of its effect (only whether it is set matters), whether the promise of
    [getUserMedia] is still pending, whether the component is mounted, and
    its two pieces of React state. *)
Record UserCamera : Type := {
  stream : bool;
  pending : bool;
  mounted : bool;
  streamActive : bool;
  error : option string
}.

(** Mounting runs the effect once: [stream] is null and [startCamera()]
    is called, which suspends at [await getUserMedia(...)]. *)
Definition mount : UserCamera * list effect :=
  ({| stream := false; pending := true; mounted := true;
      streamActive := false; error := None |},
   [GetUserMedia]).

(** What can happen next: the promise resolves or rejects, or React
    unmounts the component and runs the cleanup of the effect. *)
Inductive event : Type := Granted | Rejected | Unmount.

(** [videoRef.current]: the video element exists while the component is
    mounted and renders the video branch, that is while [error] is null. *)
Definition videoRef_current (c : UserCamera) : bool :=
  mounted c && match error c with None => true | Some _ => false end.

(** React drops state updates of a component that is not mounted. *)
Definition setError (msg : string) (c : UserCamera) : UserCamera :=
  {| stream := stream c; pending := pending c; mounted := mounted c;
     streamActive := streamActive c;
     error := if mounted c then Some msg else error c |}.

(** One event.  [None] marks an event that cannot happen: a promise
    settles once, a component unmounts once. *)
Definition step (c : UserCamera) (ev : event)
  : option (UserCamera * list effect) :=
  match ev with
  | Granted =>
      if pending c then
        let c1 := {| stream := true; pending := false; mounted := mounted c;
                     streamActive := streamActive c; error := error c |} in
        if videoRef_current c1 then
          Some ({| stream := stream c1; pending := pending c1;
                   mounted := mounted c1; streamActive := true;
                   error := error c1 |},
                [SetSrcObject])
        else Some (c1, [])
      else None
  | Rejected =>
      if pending c then
        Some (setError "Camera unavailable"
                {| stream := stream c; pending := false;
                   mounted := mounted c; streamActive := streamActive c;
                   error := error c |},
              [ConsoleError])
      else None
  | Unmount =>
      if mounted c then
        Some ({| stream := stream c; pending := pending c; mounted := false;
                 streamActive := streamActive c; error := error c |},
              if stream c then [StopTracks] else [])
      else None
  end.

Fixpoint run (evs : list event) (c : UserCamera)
  : option (UserCamera * list effect) :=
  match evs with
  | [] => Some (c, [])
  | e :: rest =>
      match step c e with
      | Some (c1, eff1) =>
          match run rest c1 with
          | Some (c2, eff2) => Some (c2, eff1 ++ eff2)
          | None => None
          end
      | None => None
      end
  end.

(** How many times the trace stops the camera's tracks. *)
Fixpoint stops (tr : list effect) : nat :=
  match tr with
  | [] => O
  | StopTracks :: rest => S (stops rest)
  | _ :: rest => stops rest
  end.

(** The state is one a component can be in, and the tracks have been
    stopped [n] times. *)
Definition consistent (c : UserCamera) (n : nat) : bool :=
  (if pending c
   then negb (stream c) && negb (streamActive c)
        && match error c with None => true | Some _ => false end
   else true)
  && (if streamActive c then stream c else true)
  && (if stream c && negb (streamActive c) then negb (mounted c) else true)
  && (n =? (if streamActive c && negb (mounted c) then 1 else 0))%nat.

End Camera.

(* ================================================================== *)
(** * Properties                                                        *)
(* ================================================================== *)

(* ------------------------------------------------------------------ *)
(** ** Base64 and typed arrays                                          *)
(* ------------------------------------------------------------------ *)

Section Base64Facts.

Import Base64.

Local Ltac Zify.zify_post_hook ::= Z.to_euclidean_division_equations.

(** Lists taken three elements at a time. *)
Lemma list_ind3 {A} (P : list A -> Prop) :
  P [] -> (forall a, P [a]) -> (forall a b, P [a; b]) ->
  (forall a b c l, P l -> P (a :: b :: c :: l)) ->
  forall l, P l.
Proof.
  intros H0 H1 H2 H3 l.
  enough (P l /\ (forall a, P (a :: l)) /\ (forall a b, P (a :: b :: l)))
    by tauto.
  induction l as [|x l (IH0 & IH1 & IH2)]; auto.
Qed.

Lemma in_sextet_range n : (n < 64)%N -> In n sextet_range.
Proof.
  intros H. unfold sextet_range. rewrite <- (N2Nat.id n).
  apply in_map, in_seq. lia.
Qed.

Lemma digit_checked :
  forallb (fun n =>
             match value (digit n) with
             | Some m => N.eqb m n
             | None => false
             end
             && negb (Ascii.eqb (digit n) pad)
             && negb (is_ascii_whitespace (digit n)))
          sextet_range = true.
Proof. vm_compute. reflexivity. Qed.

Lemma digit_spec n :
  (n < 64)%N ->
  value (digit n) = Some n /\ digit n <> pad
  /\ is_ascii_whitespace (digit n) = false.
Proof.
  intros H. pose proof digit_checked as C.
  rewrite forallb_forall in C. specialize (C n (in_sextet_range n H)).
  apply andb_prop in C as [C C3]. apply andb_prop in C as [C1 C2].
  destruct (value (digit n)) as [m|]; [|discriminate].
  apply N.eqb_eq in C1. subst m.
  repeat split.
  - intros E. rewrite E, Ascii.eqb_refl in C2. discriminate.
  - now destruct (is_ascii_whitespace (digit n)).
Qed.

Lemma sextets_bounded bs :
  Forall (fun b => (b < 256)%N) bs -> Forall (fun x => (x < 64)%N) (sextets bs).
Proof.
  induction bs as [| a | a b | a b c l IH] using list_ind3; intros H; cbn.
  - constructor.
  - inversion_clear H. repeat constructor; lia.
  - inversion_clear H as [|? ? ? H']. inversion_clear H'.
    repeat constructor; lia.
  - inversion_clear H as [|? ? ? H']. inversion_clear H' as [|? ? ? H''].
    inversion_clear H''. repeat constructor; auto; lia.
Qed.

Lemma octets_sextets bs :
  Forall (fun b => (b < 256)%N) bs -> octets (sextets bs) = bs.
Proof.
  induction bs as [| a | a b | a b c l IH] using list_ind3; intros H; cbn.
  - reflexivity.
  - inversion_clear H. f_equal. lia.
  - inversion_clear H as [|? ? ? H']. inversion_clear H'.
    repeat f_equal; lia.
  - inversion_clear H as [|? ? ? H']. inversion_clear H' as [|? ? ? H''].
    inversion_clear H''. rewrite IH by assumption.
    repeat f_equal; lia.
Qed.

Lemma sextets_length bs :
  ((length (sextets bs) + (3 - length bs mod 3) mod 3) mod 4 = 0
   /\ length (sextets bs) mod 4 <> 1
   /\ (3 - length bs mod 3) mod 3 <= 2)%nat.
Proof.
  induction bs as [| a | a b | a b c l IH] using list_ind3;
    cbn [sextets length]; try (cbn; lia).
  destruct IH as (I1 & I2 & I3).
  replace (S (S (S (length l))) mod 3)%nat with (length l mod 3)%nat by lia.
  repeat split; lia.
Qed.

Lemma values_digits sx :
  Forall (fun x => (x < 64)%N) sx -> values (List.map digit sx) = Some sx.
Proof.
  induction 1 as [|x sx Hx _ IH]; cbn [values List.map]; [reflexivity|].
  destruct (digit_spec x Hx) as (-> & _). now rewrite IH.
Qed.

Lemma strip_padding_digits sx k :
  Forall (fun x => (x < 64)%N) sx -> (k <= 2)%nat ->
  strip_padding (List.map digit sx ++ repeat pad k) = List.map digit sx.
Proof.
  intros Hsx Hk. unfold strip_padding.
  assert (Hlast : forall c r, rev (List.map digit sx) = c :: r ->
                              Ascii.eqb c pad = false).
  { intros c r E.
    assert (In c (List.map digit sx)) as [x [<- Hx]]%in_map_iff.
    { apply in_rev. rewrite E. now left. }
    rewrite List.Forall_forall in Hsx.
    destruct (digit_spec x (Hsx x Hx)) as (_ & Hp & _).
    now apply Ascii.eqb_neq. }
  assert (Hds : List.map digit sx = rev (rev (List.map digit sx)))
    by (symmetry; apply rev_involutive).
  destruct k as [|[|[|k]]]; [| | |lia]; cbn [repeat].
  - rewrite app_nil_r.
    destruct (rev (List.map digit sx)) as [|c1 [|c2 r]];
      try reflexivity; now rewrite (Hlast _ _ eq_refl).
  - rewrite rev_app_distr. cbn [rev app].
    destruct (rev (List.map digit sx)) as [|c2 r].
    + now rewrite Hds.
    + rewrite Ascii.eqb_refl, (Hlast _ _ eq_refl). now rewrite Hds.
  - rewrite rev_app_distr. cbn [rev app].
    rewrite !Ascii.eqb_refl. now rewrite <- Hds.
Qed.

Lemma filter_whitespace_digits sx k :
  Forall (fun x => (x < 64)%N) sx ->
  List.filter (fun c => negb (is_ascii_whitespace c))
              (List.map digit sx ++ repeat pad k)
  = List.map digit sx ++ repeat pad k.
Proof.
  intros Hsx. rewrite List.filter_app. f_equal.
  - induction Hsx as [|x sx Hx _ IH]; cbn [List.map List.filter];
      [reflexivity|].
    destruct (digit_spec x Hx) as (_ & _ & ->). cbn [negb]. now rewrite IH.
  - induction k as [|k IH]; cbn; [reflexivity|]. now rewrite IH.
Qed.

Example btoa_foobar : btoa "foobar" = "Zm9vYmFy"%string.
Proof. reflexivity. Qed.

Example btoa_padded :
  btoa "fo" = "Zm8="%string /\ btoa "f" = "Zg=="%string.
Proof. split; reflexivity. Qed.

Example atob_forgiving :
  atob "Zm9v YmE" = Some "fooba"%string
  /\ atob "Zm9vY" = None /\ atob "Zm9*" = None.
Proof. repeat split. Qed.

(** [atob] undoes [btoa]. *)
Lemma atob_btoa binary : atob (btoa binary) = Some binary.
Proof.
  unfold atob, btoa.
  set (bs := List.map N_of_ascii (list_ascii_of_string binary)).
  assert (Hbs : Forall (fun b => (b < 256)%N) bs).
  { apply List.Forall_forall. intros b [c [<- _]]%in_map_iff.
    apply N_ascii_bounded. }
  pose proof (sextets_bounded bs Hbs) as Hsx.
  destruct (sextets_length bs) as (L1 & L2 & L3).
  rewrite list_ascii_of_string_of_list_ascii. unfold padding.
  rewrite (filter_whitespace_digits _ _ Hsx).
  rewrite length_app, length_map, repeat_length.
  rewrite L1. cbn [Nat.eqb].
  rewrite (strip_padding_digits _ _ Hsx L3), length_map.
  destruct (Nat.eqb_spec (length (sextets bs) mod 4) 1) as [E|_];
    [contradiction|].
  rewrite (values_digits _ Hsx), (octets_sextets _ Hbs).
  unfold bs. rewrite List.map_map.
  rewrite (List.map_ext _ (fun c => c) ascii_N_embedding), List.map_id.
  now rewrite string_of_list_ascii_of_string.
Qed.

Lemma byte_to_of_Z z : byte_to_Z (byte_of_Z z) = z mod 256.
Proof.
  unfold byte_to_Z, byte_of_Z.
  destruct (Byte.of_N (Z.to_N (z mod 256))) as [b|] eqn:E.
  - apply Byte.to_of_N in E. rewrite E. lia.
  - apply Byte.of_N_None_iff in E. lia.
Qed.

Lemma wrap_int16_range n : -32768 <= wrap_int16 n <= 32767.
Proof.
  unfold wrap_int16. destruct (Z.ltb_spec (n mod 65536) 32768); lia.
Qed.

Lemma wrap_int16_id n : -32768 <= n <= 32767 -> wrap_int16 n = n.
Proof.
  intros H. unfold wrap_int16.
  destruct (Z.ltb_spec (n mod 65536) 32768); lia.
Qed.

Lemma int16_of_bytes_of_int16 v :
  -32768 <= v <= 32767 ->
  int16_of_bytes (byte_of_Z v) (byte_of_Z (v / 256)) = v.
Proof.
  intros H. unfold int16_of_bytes. rewrite !byte_to_of_Z.
  unfold wrap_int16.
  destruct (Z.ltb_spec ((v mod 256 + 256 * (v / 256 mod 256)) mod 65536) 32768);
    lia.
Qed.

Lemma Int16Array_of_Uint8Array vs :
  Forall is_int16 vs ->
  Int16Array_of_buffer (Uint8Array_of_int16 vs) = Some vs.
Proof.
  induction 1 as [|v vs Hv _ IH]; [reflexivity|].
  unfold Uint8Array_of_int16 in *. cbn.
  rewrite IH, int16_of_bytes_of_int16 by exact Hv. reflexivity.
Qed.

(** The view exists exactly on buffers of even length; it has half as
    many elements, all 16-bit. *)
Lemma Int16Array_of_buffer_spec data :
  match Int16Array_of_buffer data with
  | Some vs =>
      Nat.even (length data) = true
      /\ length data = (2 * length vs)%nat
      /\ Forall is_int16 vs
  | None => Nat.even (length data) = false
  end.
Proof.
  enough (H : forall n data, (length data <= n)%nat ->
              match Int16Array_of_buffer data with
              | Some vs =>
                  Nat.even (length data) = true
                  /\ length data = (2 * length vs)%nat
                  /\ Forall is_int16 vs
              | None => Nat.even (length data) = false
              end) by (apply (H (length data)); lia).
  clear data. induction n as [|n IH]; intros data Hn.
  - destruct data; [cbn; auto | cbn in Hn; lia].
  - destruct data as [|lo [|hi rest]]; [cbn; auto | reflexivity |].
    cbn [Int16Array_of_buffer length].
    specialize (IH rest ltac:(cbn in Hn; lia)).
    destruct (Int16Array_of_buffer rest) as [vs|].
    + destruct IH as (E & Hl & Hf). cbn [length].
      repeat split; [exact E | lia |].
      constructor; [apply wrap_int16_range | exact Hf].
    + exact IH.
Qed.

End Base64Facts.

(* ------------------------------------------------------------------ *)
(** ** The PCM codec                                                    *)
(* ------------------------------------------------------------------ *)

Section CodecFacts.

Local Ltac Zify.zify_post_hook ::= Z.to_euclidean_division_equations.

Lemma Qtrunc_div L nc :
  0 <= L -> 0 < nc -> Qtrunc (inject_Z L / inject_Z nc) = L / nc.
Proof.
  intros HL Hnc. destruct nc as [|p|p]; try lia.
  unfold Qtrunc, Qdiv, Qinv, Qmult, inject_Z. cbn.
  rewrite Z.mul_1_r. apply Z.quot_div_nonneg; lia.
Qed.

Lemma Qceiling_div L nc :
  0 <= L -> 0 < nc -> Qceiling (inject_Z L / inject_Z nc) = - (- L / nc).
Proof.
  intros HL Hnc. destruct nc as [|p|p]; try lia.
  unfold Qceiling, Qfloor, Qdiv, Qinv, Qmult, Qopp, inject_Z. cbn.
  now rewrite Z.mul_1_r.
Qed.

Lemma createBuffer_inr nc fc rate b :
  createBuffer nc fc rate = inr b ->
  0 < nc <= maxChannels /\ 0 < Qtrunc fc /\ 0 < rate
  /\ numberOfChannels b = nc /\ frames b = Qtrunc fc /\ sampleRate b = rate
  /\ channels b = replicate (Z.to_nat nc)
                    (replicate (Z.to_nat (Qtrunc fc)) (Num 0)).
Proof.
  unfold createBuffer.
  destruct (nc <=? 0) eqn:E1; [discriminate|].
  destruct (maxChannels <? nc) eqn:E2; [discriminate|].
  destruct (Qtrunc fc <=? 0) eqn:E3; [discriminate|].
  destruct (rate <? minSampleRate) eqn:E4; [discriminate|].
  destruct (maxSampleRate <? rate) eqn:E5; [discriminate|].
  unfold minSampleRate in E4.
  cbn. intros [= <-]. cbn. repeat split; lia.
Qed.

Lemma createBuffer_rate nc fc rate b :
  createBuffer nc fc rate = inr b -> minSampleRate <= rate <= maxSampleRate.
Proof.
  unfold createBuffer.
  destruct (nc <=? 0); [discriminate|].
  destruct (maxChannels <? nc); [discriminate|].
  destruct (Qtrunc fc <=? 0); [discriminate|].
  destruct (Z.ltb_spec rate minSampleRate); [discriminate|].
  destruct (Z.ltb_spec maxSampleRate rate); [discriminate|].
  intros _. lia.
Qed.

Lemma decodeAudioData_shape data rate nc b :
  decodeAudioData data rate nc = inr b ->
  0 < frames b /\ sampleRate b = rate /\ 0 < rate
  /\ numberOfChannels b = nc /\ 0 < nc <= maxChannels.
Proof.
  unfold decodeAudioData.
  destruct (Int16Array_of_buffer data) as [vs|]; [|discriminate].
  destruct (createBuffer _ _ _) as [e|b0] eqn:E; [discriminate|].
  intros [= <-]. cbn.
  apply createBuffer_inr in E. intuition lia.
Qed.

Lemma duration_pos b :
  0 < frames b -> 0 < sampleRate b -> (0 < duration b)%Q.
Proof.
  intros Hf Hr. unfold duration.
  apply Qlt_shift_div_l.
  - change 0%Q with (inject_Z 0). rewrite <- Zlt_Qlt. exact Hr.
  - rewrite Qmult_0_l. change 0%Q with (inject_Z 0).
    rewrite <- Zlt_Qlt. exact Hf.
Qed.

Lemma decoded_duration_pos data rate nc b :
  decodeAudioData data rate nc = inr b -> (0 < duration b)%Q.
Proof.
  intros H. apply decodeAudioData_shape in H.
  apply duration_pos; intuition lia.
Qed.

Lemma sample_in_unit_range v :
  is_int16 v -> in_unit_range (Num (inject_Z v / 32768)).
Proof.
  intros [Hlo Hhi]. cbn.
  rewrite Zle_Qle in Hlo, Hhi.
  change (inject_Z (-32768)) with (-32768 # 1)%Q in Hlo.
  change (inject_Z 32767) with (32767 # 1)%Q in Hhi.
  split.
  - apply Qle_shift_div_l; [reflexivity|]. lra.
  - apply Qle_shift_div_r; [reflexivity|]. lra.
Qed.

Lemma sample_at_in_range vs k :
  Forall is_int16 vs -> (k < length vs)%nat ->
  in_unit_range (sample_at vs k).
Proof.
  intros Hvs Hk. unfold sample_at.
  destruct (lookup_lt_is_Some_2 vs k Hk) as [v Hv]. rewrite Hv.
  apply sample_in_unit_range.
  rewrite Forall_lookup in Hvs. eauto.
Qed.

(** The inner loop stores only samples of the payload: the one store
    that would read past the payload falls past the end of the channel. *)
Lemma fill_channel_in_range vs ncn c cd :
  Forall is_int16 vs ->
  (forall i, (i < length cd)%nat -> (i * ncn + c < length vs)%nat) ->
  forall iters,
    Forall in_unit_range cd ->
    Forall in_unit_range (fill_channel vs ncn c iters cd)
    /\ length (fill_channel vs ncn c iters cd) = length cd.
Proof.
  intros Hvs Hidx iters. unfold fill_channel.
  generalize (seq 0 iters) as idxs. intros idxs. revert cd Hidx.
  induction idxs as [|i idxs IH]; intros cd Hidx Hcd; cbn [fold_left];
    [auto|].
  destruct (IH (<[i := sample_at vs (i * ncn + c)]> cd)) as [H1 H2].
  - rewrite length_insert. exact Hidx.
  - destruct (Nat.lt_ge_cases i (length cd)) as [Hi|Hi].
    + apply Forall_insert; [exact Hcd|].
      apply sample_at_in_range; auto.
    + now rewrite list_insert_ge by exact Hi.
  - rewrite length_insert in H2. auto.
Qed.

Lemma fill_channels_in_range vs ncn iters len chans :
  Forall is_int16 vs ->
  (len * ncn <= length vs)%nat ->
  Forall (fun cd => Forall in_unit_range cd /\ length cd = len) chans ->
  Forall (Forall in_unit_range) (fill_channels vs ncn iters chans).
Proof.
  intros Hvs Hlen. unfold fill_channels.
  assert (Hcs : Forall (fun c => (c < ncn)%nat) (seq 0 ncn)).
  { apply List.Forall_forall. intros c Hc%in_seq. lia. }
  revert Hcs. generalize (seq 0 ncn) as cs. intros cs Hcs. revert chans.
  induction Hcs as [|c cs Hc _ IH]; intros chans Hch; cbn [fold_left].
  - eapply Forall_impl; [exact Hch|]. now intros cd [H _].
  - apply IH.
    match goal with
    | |- context [match ?o with Some _ => _ | None => _ end] =>
        destruct o as [cd|] eqn:E; [|exact Hch]
    end.
    rewrite Forall_lookup in Hch. destruct (Hch _ _ E) as [Hg Hl].
    apply Forall_lookup. intros j cd' Hj.
    destruct (decide (j = c)) as [->|Hne].
    + rewrite list_lookup_insert_eq in Hj
        by (apply lookup_lt_is_Some; eauto).
      injection Hj as <-.
      destruct (fill_channel_in_range vs ncn c cd Hvs) with (iters := iters)
        as [A B]; auto.
      { intros i Hi. rewrite Hl in Hi. nia. }
      split; [exact A | congruence].
    + rewrite list_lookup_insert_ne in Hj by auto. eauto.
Qed.

Lemma fill_length (f : nat -> number) idxs :
  forall cd,
    length (fold_left (fun cd i => <[i := f i]> cd) idxs cd) = length cd.
Proof.
  induction idxs as [|i idxs IH]; intros cd; cbn [fold_left]; [reflexivity|].
  now rewrite IH, length_insert.
Qed.

Lemma fill_lookup (f : nat -> number) k :
  forall cd i,
    fold_left (fun cd i => <[i := f i]> cd) (seq 0 k) cd !! i
    = if decide (i < k /\ i < length cd)%nat then Some (f i) else cd !! i.
Proof.
  induction k as [|k IH]; intros cd i.
  - cbn. destruct (decide _) as [[? _]|_]; [lia|reflexivity].
  - rewrite seq_S, fold_left_app. cbn [fold_left Nat.add].
    destruct (decide (i = k)) as [->|Hne].
    + destruct (decide (k < length cd)%nat) as [Hk|Hk].
      * rewrite list_lookup_insert_eq by (now rewrite fill_length).
        destruct (decide _) as [_|N]; [reflexivity|lia].
      * rewrite list_insert_ge by (rewrite fill_length; lia).
        rewrite IH.
        destruct (decide _) as [?|_]; [lia|].
        destruct (decide _) as [?|_]; [lia|reflexivity].
    + rewrite list_lookup_insert_ne by auto. rewrite IH.
      destruct (decide _) as [?|N1]; destruct (decide _) as [?|N2];
        try reflexivity; lia.
Qed.

Lemma lookup_map {A B} (g : A -> B) l i :
  List.map g l !! i = option_map g (l !! i).
Proof.
  revert i. induction l as [|a l IH]; intros [|i]; cbn; auto.
Qed.

(** Mono: the loop copies the payload, sample by sample. *)
Lemma fill_channel_mono vs :
  fill_channel vs 1 0 (length vs) (replicate (length vs) (Num 0))
  = List.map (fun v => Num (dequantize v)) vs.
Proof.
  apply list_eq. intros i. unfold fill_channel.
  rewrite (fill_lookup (fun i => sample_at vs (i * 1 + 0))).
  rewrite length_replicate, lookup_map.
  destruct (decide _) as [[Hi _]|N].
  - unfold sample_at. replace (i * 1 + 0)%nat with i by lia.
    destruct (lookup_lt_is_Some_2 vs i Hi) as [v ->]. reflexivity.
  - rewrite (lookup_ge_None_2 vs) by lia.
    apply lookup_ge_None_2. rewrite length_replicate. lia.
Qed.

Lemma decodeAudioData_mono data vs rate :
  Int16Array_of_buffer data = Some vs -> vs <> [] ->
  minSampleRate <= rate <= maxSampleRate ->
  decodeAudioData data rate 1
  = inr {| numberOfChannels := 1;
           frames := Z.of_nat (length vs);
           sampleRate := rate;
           channels := [List.map (fun v => Num (dequantize v)) vs] |}.
Proof.
  intros Hview Hne Hrate. unfold decodeAudioData. rewrite Hview.
  assert (HL : 0 < Z.of_nat (length vs)) by (destruct vs; [congruence|cbn; lia]).
  unfold createBuffer.
  rewrite Qtrunc_div, Qceiling_div by lia.
  rewrite Z.div_1_r.
  replace (- (- Z.of_nat (length vs) / 1)) with (Z.of_nat (length vs))
    by (rewrite Z.div_1_r; lia).
  destruct (Z.leb_spec (Z.of_nat (length vs)) 0); [lia|].
  destruct (Z.ltb_spec rate minSampleRate); [lia|].
  destruct (Z.ltb_spec maxSampleRate rate); [lia|].
  cbn [orb Z.leb Z.ltb maxChannels Z.compare Pos.compare Pos.compare_cont].
  cbn [numberOfChannels frames sampleRate channels].
  rewrite Nat2Z.id. change (Z.to_nat 1) with 1%nat.
  cbn [replicate fill_channels seq fold_left lookup list_lookup].
  cbn [insert list_insert]. now rewrite fill_channel_mono.
Qed.

Lemma decode_binary bytes :
  decode (Base64.btoa (string_of_list_ascii (List.map fromCharCode bytes)))
  = inr bytes.
Proof.
  unfold decode. rewrite atob_btoa.
  rewrite list_ascii_of_string_of_list_ascii, List.map_map.
  rewrite (List.map_ext _ (fun b => b)), List.map_id; [reflexivity|].
  intros b. apply byte_of_ascii_of_byte.
Qed.

Lemma quantize_int16 x : is_int16 (quantize x).
Proof.
  unfold quantize, ToInt16.
  destruct (Math_max _ _) as [|q]; [unfold is_int16; lia|].
  destruct (Qlt_le_dec q 0); apply wrap_int16_range.
Qed.

(** Encoding then decoding a non-empty block gives one channel holding
    the quantized samples, rescaled. *)
Lemma roundtrip_samples xs rate :
  xs <> [] -> minSampleRate <= rate <= maxSampleRate ->
  roundtrip xs rate
  = inr {| numberOfChannels := 1;
           frames := Z.of_nat (length xs);
           sampleRate := rate;
           channels := [List.map (fun x => Num (dequantize (quantize x))) xs] |}.
Proof.
  intros Hne Hrate. unfold roundtrip, float32ToPCM16.
  rewrite decode_binary.
  rewrite (decodeAudioData_mono _ (List.map quantize xs)); auto.
  - now rewrite length_map, List.map_map.
  - apply Int16Array_of_Uint8Array.
    apply List.Forall_forall. intros v [x [<- _]]%in_map_iff.
    apply quantize_int16.
  - destruct xs; [congruence|discriminate].
Qed.

Lemma Qtrunc_nonneg y :
  (0 <= y)%Q ->
  (inject_Z (Qtrunc y) <= y)%Q /\ (y < inject_Z (Qtrunc y) + 1)%Q.
Proof.
  intros Hy.
  assert (E : Qtrunc y = Qfloor y).
  { destruct y as [n d]. unfold Qtrunc, Qfloor. cbn.
    apply Z.quot_div_nonneg; [|lia].
    unfold Qle in Hy. cbn in Hy. lia. }
  rewrite E. split; [apply Qfloor_le|].
  rewrite <- (inject_Z_plus _ 1). apply Qlt_floor.
Qed.

Lemma Qtrunc_nonpos y :
  (y <= 0)%Q ->
  (y <= inject_Z (Qtrunc y))%Q /\ (inject_Z (Qtrunc y) < y + 1)%Q.
Proof.
  intros Hy.
  assert (E : Qtrunc y = Qceiling y).
  { destruct y as [n d]. unfold Qtrunc, Qceiling, Qfloor, Qopp. cbn.
    unfold Qle in Hy. cbn in Hy.
    rewrite <- (Z.opp_involutive n) at 1.
    rewrite Z.quot_opp_l by lia. f_equal.
    apply Z.quot_div_nonneg; lia. }
  rewrite E. split; [apply Qle_ceiling|].
  pose proof (Qceiling_lt y) as H.
  unfold Z.sub in H. rewrite inject_Z_plus in H.
  change (inject_Z (Z.opp 1)) with (-1 # 1)%Q in H. lra.
Qed.

Lemma clamp_id q :
  (-1 <= q)%Q -> (q <= 1)%Q -> (Qmax (-1) (Qmin 1 q) == q)%Q.
Proof.
  intros Hlo Hhi.
  rewrite (Q.min_r 1 q Hhi). apply Q.max_r. exact Hlo.
Qed.

Lemma Z_bounds_of_Q a b n :
  (inject_Z (a - 1) < inject_Z n)%Q -> (inject_Z n < inject_Z (b + 1))%Q ->
  a <= n <= b.
Proof. rewrite <- !Zlt_Qlt. lia. Qed.

(** What the quantizer does to a sample between -1 and 1. *)
Lemma quantize_error q :
  (-1 <= q)%Q -> (q <= 1)%Q ->
  let y := dequantize (quantize (Num q)) in
  ((q < 0)%Q -> (q <= y)%Q /\ (y - q < 1 # 32768)%Q)
  /\ ((0 <= q)%Q -> (y <= q)%Q /\ (q - y < 2 # 32768)%Q).
Proof.
  intros Hlo Hhi. unfold quantize, Math_min, Math_max, ToInt16, dequantize.
  pose proof (clamp_id q Hlo Hhi) as Hs.
  set (s := Qmax (-1) (Qmin 1 q)) in *.
  unfold Qdiv. change (/ 32768)%Q with (1 # 32768)%Q.
  destruct (Qlt_le_dec s 0) as [Hneg|Hpos]; cbn zeta.
  - destruct (Qtrunc_nonpos (s * 32768)) as [T1 T2]; [lra|].
    rewrite wrap_int16_id.
    2:{ apply (Z_bounds_of_Q (-32768) 32767);
        [change (inject_Z (-32768 - 1)) with (-32769 # 1)%Q
        |change (inject_Z (32767 + 1)) with (32768 # 1)%Q]; lra. }
    split; intros Hq; [|lra]. split; lra.
  - destruct (Qtrunc_nonneg (s * 32767)) as [T1 T2]; [lra|].
    rewrite wrap_int16_id.
    2:{ apply (Z_bounds_of_Q (-32768) 32767);
        [change (inject_Z (-32768 - 1)) with (-32769 # 1)%Q
        |change (inject_Z (32767 + 1)) with (32768 # 1)%Q]; lra. }
    split; intros Hq; [lra|]. split; lra.
Qed.

(** C8, as stated, fails: the sample 65535/65536 is encoded as 32766
    and decoded as 32766/32768, which is 1.5/32768 away from it. *)
Lemma roundtrip_exceeds_one_lsb :
  ((-1 <= 65535 # 65536)%Q /\ (65535 # 65536 <= 1)%Q)
  /\ roundtrip [Num (65535 # 65536)] 24000
     = inr {| numberOfChannels := 1; frames := 1; sampleRate := 24000;
              channels := [[Num (32766 # 32768)]] |}
  /\ ~ (Qabs ((32766 # 32768) - (65535 # 65536)) <= 1 # 32768)%Q.
Proof.
  split; [split; discriminate|]. split; [reflexivity|].
  intros H. apply Qabs_Qle_condition in H. destruct H as [H _].
  revert H. vm_compute. intros H. apply H. reflexivity.
Qed.

(** C8 (amended): for every non-empty block of samples between -1 and
    1, decoding the encoded block at a sample rate every platform
    supports (8000 to 96000 Hz) gives one channel with as many
    samples, each the rescaled 16-bit value of its input
    (s<0 ? s*32768 : s*32767, truncated), and each within two
    quantization steps of its input: |decode(encode(x))_i - x_i| <
    2/32768, and < 1/32768 for negative x_i. *)
Theorem roundtrip_within_two_lsb (xs : list Q) (rate : Z) :
  xs <> [] -> minSampleRate <= rate <= maxSampleRate ->
  Forall (fun q => (-1 <= q)%Q /\ (q <= 1)%Q) xs ->
  exists ys,
    roundtrip (List.map Num xs) rate
    = inr {| numberOfChannels := 1;
             frames := Z.of_nat (length xs);
             sampleRate := rate;
             channels := [List.map Num ys] |}
    /\ Forall2
         (fun x y =>
            y = dequantize (quantize (Num x))
            /\ (Qabs (y - x) < 2 # 32768)%Q
            /\ ((x < 0)%Q -> (Qabs (y - x) < 1 # 32768)%Q))
         xs ys.
Proof.
  intros Hne Hrate Hxs.
  exists (List.map (fun x => dequantize (quantize (Num x))) xs).
  split.
  - rewrite roundtrip_samples; auto.
    + now rewrite length_map, !List.map_map.
    + destruct xs; [congruence|discriminate].
  - clear Hne. induction Hxs as [|x xs [Hlo Hhi] _ IH]; cbn [List.map];
      constructor; auto.
    destruct (quantize_error x Hlo Hhi) as [Hn Hp].
    split; [reflexivity|]. split.
    + apply Qabs_Qlt_condition.
      destruct (Qlt_le_dec x 0) as [Hx|Hx];
        [destruct (Hn Hx) | destruct (Hp Hx)]; split; lra.
    + intros Hx. apply Qabs_Qlt_condition. destruct (Hn Hx). split; lra.
Qed.

Lemma roundtrip_within_two_lsb_witness :
  exists ys,
    roundtrip (List.map Num [(65535 # 65536)%Q; (-1 # 3)%Q]) 16000
    = inr {| numberOfChannels := 1; frames := 2; sampleRate := 16000;
             channels := [List.map Num ys] |}
    /\ Forall2
         (fun x y =>
            y = dequantize (quantize (Num x))
            /\ (Qabs (y - x) < 2 # 32768)%Q
            /\ ((x < 0)%Q -> (Qabs (y - x) < 1 # 32768)%Q))
         [(65535 # 65536)%Q; (-1 # 3)%Q] ys.
Proof.
  apply (roundtrip_within_two_lsb [(65535 # 65536)%Q; (-1 # 3)%Q] 16000).
  - discriminate.
  - unfold minSampleRate, maxSampleRate. lia.
  - repeat constructor; discriminate.
Defined.

(** When [decodeAudioData] throws, for a channel count and a sample rate
    in range: on a payload of odd length ([RangeError]) or holding less
    than one frame ([NotSupportedError]). *)
Lemma decodeAudioData_fails_iff data rate nc :
  1 <= nc <= maxChannels -> minSampleRate <= rate <= maxSampleRate ->
  (exists e, decodeAudioData data rate nc = inl e)
  <-> (Nat.even (length data) = false
       \/ Z.of_nat (length data) < 2 * nc).
Proof.
  intros Hnc Hrate. unfold decodeAudioData.
  pose proof (Int16Array_of_buffer_spec data) as Hview.
  destruct (Int16Array_of_buffer data) as [vs|].
  - destruct Hview as (Heven & Hlen & _).
    unfold createBuffer. rewrite Qtrunc_div by lia.
    destruct (Z.leb_spec nc 0); [lia|].
    destruct (Z.ltb_spec maxChannels nc); [lia|].
    destruct (Z.ltb_spec rate minSampleRate); [lia|].
    destruct (Z.ltb_spec maxSampleRate rate); [lia|].
    rewrite !orb_false_r.
    pose proof (Z.div_pos (Z.of_nat (length vs)) nc ltac:(lia) ltac:(lia)).
    pose proof (Z.div_small_iff (Z.of_nat (length vs)) nc ltac:(lia)) as S.
    destruct (Z.leb_spec (Z.of_nat (length vs) / nc) 0) as [Hz|Hz]; cbn [orb].
    + split; [|eauto]. intros _. right. lia.
    + split; [intros [e [=]]|]. intros [Ho|Hs]; [congruence|].
      exfalso. assert (Z.of_nat (length vs) / nc = 0) by (apply S; lia). lia.
  - split; [auto|eauto].
Qed.

(** Outside the supported range the sample rate alone makes
    [createBuffer], and with it the decoding of a well-formed payload,
    fail. *)
Example unsupported_rate_rejected :
  decodeAudioData [x01; x00] 1 1 = inl NotSupportedError
  /\ decodeAudioData [x01; x00] 1000000 1 = inl NotSupportedError
  /\ decodeAudioData [x01; x00] OUTPUT_RATE 1
     = inr {| numberOfChannels := 1; frames := 1; sampleRate := OUTPUT_RATE;
              channels := [[Num (1 # 32768)]] |}.
Proof. repeat split. Qed.

(** C10: every sample of every channel of a decoded buffer is a number
    (never NaN) between -1 = -32768/32768 and 32767/32768, hence below
    1, for every payload and channel count the decoder accepts. *)
Theorem decoded_samples_in_range (data : list byte) (rate numChannels : Z)
  (b : AudioBuffer) :
  decodeAudioData data rate numChannels = inr b ->
  1 <= numChannels
  /\ Forall (Forall in_unit_range) (channels b)
  /\ (forall cd x, In cd (channels b) -> In x cd ->
        exists q, x = Num q /\ (-32768 # 32768 <= q)%Q
                  /\ (q <= 32767 # 32768)%Q /\ (q < 1)%Q).
Proof.
  intros H.
  assert (Hall : 1 <= numChannels
                 /\ Forall (Forall in_unit_range) (channels b)).
  { revert H. unfold decodeAudioData.
    pose proof (Int16Array_of_buffer_spec data) as Hview.
    destruct (Int16Array_of_buffer data) as [vs|]; [|discriminate].
    destruct Hview as (_ & _ & Hvs).
    destruct (createBuffer _ _ _) as [e|b0] eqn:E; [discriminate|].
    intros [= <-]. cbn [channels].
    apply createBuffer_inr in E.
    destruct E as (Hnc & Hlen & _ & _ & _ & _ & ->).
    split; [lia|].
    rewrite Qtrunc_div in * by lia.
    apply (fill_channels_in_range vs _ _
             (Z.to_nat (Z.of_nat (length vs) / numChannels))); auto.
    - nia.
    - apply Forall_replicate. split; [|apply length_replicate].
      apply Forall_replicate. cbn. split; discriminate. }
  destruct Hall as [Hnc Hall]. repeat split; auto.
  intros cd x Hcd Hx.
  rewrite List.Forall_forall in Hall. specialize (Hall cd Hcd).
  rewrite List.Forall_forall in Hall. specialize (Hall x Hx).
  destruct x as [|q]; [contradiction|]. destruct Hall as [Hlo Hhi].
  exists q. repeat split; auto.
  - assert ((-32768 # 32768) == -1)%Q by reflexivity. lra.
  - assert ((32767 # 32768) < 1)%Q by reflexivity. lra.
Qed.

Lemma decoded_samples_in_range_witness :
  Forall (Forall in_unit_range)
    [[Num (inject_Z 1 / 32768)]; [Num (inject_Z (-32768) / 32768)]].
Proof.
  apply (decoded_samples_in_range
           [x01; x00; x00; x80; xff; x7f] 24000 2
           {| numberOfChannels := 2; frames := 1; sampleRate := 24000;
              channels := [[Num (inject_Z 1 / 32768)];
                           [Num (inject_Z (-32768) / 32768)]] |}).
  reflexivity.
Defined.

End CodecFacts.

(* ------------------------------------------------------------------ *)
(** ** The playback scheduler                                           *)
(* ------------------------------------------------------------------ *)

Section PlayerFacts.

Import Player.

Lemma initContext_cursor susp p :
  nextStartTime (fst (initContext susp p)) = nextStartTime p
  /\ sources (fst (initContext susp p)) = sources p
  /\ isPlaying (fst (initContext susp p)) = isPlaying p
  /\ created (fst (initContext susp p)) = created p
  /\ onPlayStateChange (fst (initContext susp p)) = onPlayStateChange p.
Proof. unfold initContext. destruct (audioContext p); cbn; auto. Qed.

Lemma initContext_effects susp p :
  snd (initContext susp p) = if susp then [CtxResume] else [].
Proof. reflexivity. Qed.

(** What a successful or failed [queueAudio] is made of. *)
Lemma queueAudio_cases t susp a p :
  (exists e, snd (queueAudio t susp a p) = Some e
             /\ fst (queueAudio t susp a p) = initContext susp p)
  \/ (exists bytes b,
         decode a = inr bytes
         /\ decodeAudioData bytes OUTPUT_RATE 1 = inr b
         /\ snd (queueAudio t susp a p) = None
         /\ fst (queueAudio t susp a p) =
              (fst (schedule t b (fst (initContext susp p))),
               snd (initContext susp p)
                 ++ snd (schedule t b (fst (initContext susp p))))).
Proof.
  unfold queueAudio.
  destruct (initContext susp p) as [p0 e0] eqn:E0.
  destruct (decode a) as [e|bytes].
  - left. exists e. auto.
  - destruct (decodeAudioData bytes OUTPUT_RATE 1) as [e|b] eqn:Eb.
    + left. exists e. auto.
    + right. exists bytes, b. cbn.
      destruct (schedule t b p0) as [p1 e1]. auto.
Qed.

Lemma start_of_max t p : (start_of t p == Qmax (nextStartTime p) t)%Q.
Proof.
  unfold start_of. destruct (Qlt_le_dec (nextStartTime p) t) as [Hlt|Hle].
  - symmetry. apply Q.max_r. apply Qlt_le_weak, Hlt.
  - symmetry. apply Q.max_l. exact Hle.
Qed.

Lemma start_of_bounds t p :
  (t <= start_of t p)%Q /\ (nextStartTime p <= start_of t p)%Q.
Proof.
  unfold start_of. destruct (Qlt_le_dec (nextStartTime p) t) as [Hlt|Hle];
    split; try apply Qle_refl; auto using Qlt_le_weak.
Qed.

Lemma queueAudio_success t susp a p :
  snd (queueAudio t susp a p) = None ->
  exists b,
    decoded a = Some b
    /\ (0 < duration b)%Q
    /\ sources (queue (t, susp, a) p)
       = sources p ++ [mkNode (created p) b (start_of t p)]
    /\ nextStartTime (queue (t, susp, a) p)
       = (start_of t p + duration b)%Q
    /\ created (queue (t, susp, a) p) = S (created p)
    /\ isPlaying (queue (t, susp, a) p) = true
    /\ snd (fst (queueAudio t susp a p))
       = (if susp then [CtxResume] else [])
           ++ SourceStart (created p) (start_of t p)
           :: (if isPlaying p then [] else notify p true).
Proof.
  intros Hok. unfold queue, apply, decoded.
  destruct (queueAudio_cases t susp a p)
    as [(e & He & _)|(bs & b & Hd & Hb & _ & H)]; [congruence|].
  exists b. rewrite Hd, Hb, H. cbn [fst snd].
  destruct (initContext_cursor susp p) as (C1 & C2 & C3 & C4 & C5).
  rewrite initContext_effects.
  generalize dependent (fst (initContext susp p)). intros p0 _ C1 C2 C3 C4 C5.
  unfold schedule, start_of, notify. cbn.
  rewrite C1, C2, C3, C4, C5.
  repeat split; eauto using decoded_duration_pos.
Qed.

Lemma queueAudio_failure t susp a p :
  snd (queueAudio t susp a p) <> None ->
  decoded a = None
  /\ fst (queueAudio t susp a p) = initContext susp p.
Proof.
  intros Hko. unfold decoded.
  destruct (queueAudio_cases t susp a p)
    as [(e & He & H)|(bs & b & Hd & Hb & Hn & _)]; [|congruence].
  split; [|exact H].
  revert He. unfold queueAudio.
  destruct (initContext susp p) as [p0 e0].
  destruct (decode a) as [e'|bytes]; [reflexivity|].
  destruct (decodeAudioData bytes OUTPUT_RATE 1) as [e'|b]; [reflexivity|].
  destruct (schedule t b p0). discriminate.
Qed.

Lemma queueAudio_cursor_le t susp a p :
  (nextStartTime p <= nextStartTime (queue (t, susp, a) p))%Q.
Proof.
  destruct (snd (queueAudio t susp a p)) as [e|] eqn:E.
  - assert (Hko : snd (queueAudio t susp a p) <> None) by congruence.
    destruct (queueAudio_failure _ _ _ _ Hko) as [_ H].
    unfold queue, apply. rewrite H.
    rewrite (proj1 (initContext_cursor susp p)). apply Qle_refl.
  - destruct (queueAudio_success _ _ _ _ E) as (b & _ & Hd & _ & -> & _).
    destruct (start_of_bounds t p). lra.
Qed.

Lemma cursors_nondecreasing ops :
  no_stop ops = true -> forall p, nondecreasing (cursors ops p).
Proof.
  induction ops as [|o rest IH]; intros Hns p; [exact I|].
  destruct o as [t susp a|]; [|discriminate].
  cbn [no_stop] in Hns. specialize (IH Hns (queue (t, susp, a) p)).
  unfold cursors in *.
  change (states (QueueAudio t susp a :: rest) p)
    with (p :: states rest (queue (t, susp, a) p)).
  pose proof (queueAudio_cursor_le t susp a p) as Hle.
  destruct rest as [|o' rest']; cbn [states List.map nondecreasing] in *; auto.
Qed.

Lemma back_to_back_chain cs :
  forall p, back_to_back cs p ->
  exists ns,
    sources (queueAll cs p) = sources p ++ ns
    /\ chained (nextStartTime p) ns
    /\ List.map node_id ns = seq (created p) (length cs)
    /\ List.map (fun n => Some (buffer n)) ns
       = List.map (fun c : call => decoded (snd c)) cs.
Proof.
  induction cs as [|[[t susp] a] rest IH]; intros p Hb.
  - exists []. cbn. rewrite app_nil_r. auto.
  - cbn [back_to_back] in Hb. destruct Hb as (Hok & Hle & Hrest).
    destruct (queueAudio_success _ _ _ _ Hok)
      as (b & Hdec & _ & Hsrc & Hcur & Hcr & _).
    change (apply (QueueAudio t susp a) p) with (queue (t, susp, a) p) in *.
    destruct (IH _ Hrest) as (ns & Hs & Hch & Hid & Hbuf).
    assert (Hstart : start_of t p = nextStartTime p).
    { unfold start_of. destruct (Qlt_le_dec (nextStartTime p) t) as [Hlt|_];
        [|reflexivity]. exfalso. apply (Qlt_not_le _ _ Hlt Hle). }
    exists (mkNode (created p) b (start_of t p) :: ns).
    unfold queueAll in *. cbn [fold_left].
    rewrite Hs, Hsrc, <- app_assoc.
    rewrite Hcur in Hch. rewrite Hcr in Hid.
    cbn [chained List.map seq length node_id buffer startTime snd app].
    rewrite Hid, Hbuf, Hdec, Hstart in *.
    repeat split; try reflexivity; auto.
Qed.

Lemma queueAudio_starts t susp a p id when :
  In (SourceStart id when) (snd (fst (queueAudio t susp a p))) ->
  id = created p /\ when = start_of t p
  /\ snd (queueAudio t susp a p) = None.
Proof.
  destruct (snd (queueAudio t susp a p)) as [e|] eqn:E.
  - assert (Hne : snd (queueAudio t susp a p) <> None) by congruence.
    destruct (queueAudio_failure _ _ _ _ Hne) as [_ ->].
    rewrite initContext_effects. destruct susp; cbn; intuition discriminate.
  - destruct (queueAudio_success _ _ _ _ E) as (b & _ & _ & _ & _ & _ & _ & ->).
    rewrite in_app_iff. unfold notify.
    intros [H|[H|H]].
    + destruct susp; cbn in H; intuition discriminate.
    + injection H as <- <-. auto.
    + destruct (isPlaying p), (onPlayStateChange p); cbn in H;
        intuition discriminate.
Qed.

(** C2, as stated, fails: with an observer installed, the second of two
    consecutive [stop()] calls notifies the observer once more. *)
Lemma stop_twice_notifies_again :
  let p1 := fst (stop (Player.new true)) in
  fst (stop p1) = p1 /\ snd (stop p1) = [PlayStateChange false]
  /\ snd (stop p1) <> [].
Proof. cbn. repeat split. discriminate. Qed.

(** C2 (amended): [stop()] is idempotent on the scheduler state.  From
    every state, the state after one call has an empty active set, the
    cursor at 0 and [isPlaying] false; a second call returns that very
    state and stops no source.  Every call, the repeated one included,
    notifies the observer (when there is one) with [false]; so does a
    late [onended] of a stopped source, again without changing the
    state. *)
Theorem stop_idempotent_state (p : StreamAudioPlayer) :
  let p1 := fst (stop p) in
  sources p1 = [] /\ nextStartTime p1 = 0%Q /\ isPlaying p1 = false
  /\ fst (stop p1) = p1
  /\ snd (stop p1) = notify p false
  /\ snd (stop p) = List.map (fun s => SourceStop (node_id s)) (sources p)
                      ++ notify p false
  /\ (forall id, onended id p1 = (p1, notify p false)).
Proof. cbn. repeat split. Qed.

(** C4, as stated, fails: [stop()] moves the cursor back to 0. *)
Lemma cursor_drops_at_stop :
  cursors [QueueAudio 1 false "AAA="; Stop] (Player.new true)
  = [0%Q; (24001 # 24000)%Q; 0%Q]
  /\ ~ nondecreasing
         (cursors [QueueAudio 1 false "AAA="; Stop] (Player.new true)).
Proof.
  split; [reflexivity|].
  intros [_ [H _]]. revert H. vm_compute. intros H. apply H. reflexivity.
Qed.

(** C4 (amended): across every sequence of [queueAudio] calls the cursor
    [nextStartTime] never goes down, and every buffer is started at the
    cursor value of that moment, which is at least the audio clock's
    current time; [stop()] resets the cursor to 0. *)
Theorem cursor_monotone_between_stops (ops : list op)
  (p : StreamAudioPlayer) :
  no_stop ops = true ->
  nondecreasing (cursors ops p)
  /\ (forall t susp a q id when,
         In (SourceStart id when) (snd (fst (queueAudio t susp a q))) ->
         (t <= when)%Q /\ (nextStartTime q <= when)%Q
         /\ (when <= nextStartTime (apply (QueueAudio t susp a) q))%Q)
  /\ (forall q, nextStartTime (apply Stop q) = 0%Q).
Proof.
  intros Hns. split; [apply cursors_nondecreasing, Hns|]. split; [|reflexivity].
  intros t susp a q id when Hin.
  destruct (queueAudio_starts _ _ _ _ _ _ Hin) as (_ & -> & Hok).
  destruct (queueAudio_success _ _ _ _ Hok) as (b & _ & Hd & _ & Hc & _).
  change (apply (QueueAudio t susp a) q) with (queue (t, susp, a) q).
  rewrite Hc. destruct (start_of_bounds t q). repeat split; auto. lra.
Qed.

Lemma cursor_monotone_between_stops_witness :
  nondecreasing
    (cursors [QueueAudio 1 false "AAA="; QueueAudio 0 true "AAAAAA=="]
             (Player.new true))
  /\ (1 <= 1)%Q /\ (0 <= 1)%Q
  /\ (1 <= nextStartTime (apply (QueueAudio 1 false "AAA=") (Player.new true)))%Q.
Proof.
  destruct (cursor_monotone_between_stops
              [QueueAudio 1 false "AAA="; QueueAudio 0 true "AAAAAA=="]
              (Player.new true))
    as (Hmono & Hstart & _); [reflexivity|].
  split; [exact Hmono|].
  apply (Hstart 1%Q false "AAA="%string (Player.new true) O 1%Q).
  vm_compute. auto.
Defined.

(** C5: a call of [queueAudio] whose chunk decodes to a buffer of
    duration d starts that buffer at max(cursor, now) and leaves the
    cursor at that start plus d; if the call arrives after the cursor
    (a real-time gap) the start is now.  Further calls that each arrive
    no later than the cursor are scheduled in arrival order, each
    starting exactly where its predecessor ends. *)
Theorem queueAudio_gapless (t : Q) (susp : bool) (a : string)
  (p : StreamAudioPlayer) (rest : list call) :
  snd (queueAudio t susp a p) = None ->
  back_to_back rest (queue (t, susp, a) p) ->
  exists n ns,
    sources (queueAll ((t, susp, a) :: rest) p) = sources p ++ n :: ns
    /\ In (SourceStart (node_id n) (startTime n))
          (snd (fst (queueAudio t susp a p)))
    /\ (startTime n == Qmax (nextStartTime p) t)%Q
    /\ ((nextStartTime p < t)%Q -> startTime n = t)
    /\ nextStartTime (queue (t, susp, a) p)
       = (startTime n + duration (buffer n))%Q
    /\ chained (startTime n + duration (buffer n))%Q ns
    /\ List.map node_id (n :: ns) = seq (created p) (S (length rest))
    /\ List.map (fun m => Some (buffer m)) (n :: ns)
       = List.map (fun c : call => decoded (snd c)) ((t, susp, a) :: rest).
Proof.
  intros Hok Hrest.
  destruct (queueAudio_success _ _ _ _ Hok)
    as (b & Hdec & _ & Hsrc & Hcur & Hcr & _ & Heff).
  destruct (back_to_back_chain _ _ Hrest) as (ns & Hs & Hch & Hid & Hbuf).
  exists (mkNode (created p) b (start_of t p)), ns.
  unfold queueAll in *. cbn [fold_left].
  rewrite Hs, Hsrc, <- app_assoc, Heff.
  cbn [List.map seq length node_id buffer startTime snd app].
  rewrite Hcur in Hch. rewrite Hcr in Hid. rewrite Hid, Hbuf, Hdec.
  repeat split; auto.
  - rewrite in_app_iff. right. now left.
  - apply start_of_max.
  - intros Hlt. unfold start_of.
    destruct (Qlt_le_dec (nextStartTime p) t) as [_|Hle]; [reflexivity|].
    exfalso. apply (Qlt_not_le _ _ Hlt Hle).
Qed.

Lemma queueAudio_gapless_witness :
  exists n ns,
    sources (queueAll [(5%Q, false, "AAA="%string);
                       (5%Q, false, "AAAAAA=="%string);
                       ((120001 # 24000)%Q, true, "AAA="%string)]
                      (Player.new true)) = [] ++ n :: ns
    /\ startTime n = 5%Q
    /\ chained (startTime n + duration (buffer n))%Q ns.
Proof.
  destruct (queueAudio_gapless 5 false "AAA=" (Player.new true)
              [(5%Q, false, "AAAAAA=="%string);
               ((120001 # 24000)%Q, true, "AAA="%string)])
    as (n & ns & Hs & _ & _ & Hgap & _ & Hch & _).
  - reflexivity.
  - vm_compute. intuition discriminate.
  - exists n, ns. repeat split; auto. apply Hgap. reflexivity.
Defined.

End PlayerFacts.

(* ------------------------------------------------------------------ *)
(** ** The transcript aggregator                                        *)
(* ------------------------------------------------------------------ *)

Section TranscriptFacts.

Import App.

Lemma trimStart_nil cs :
  trimStart cs = [] <-> forallb isWhiteSpace cs = true.
Proof.
  induction cs as [|c cs IH]; cbn; [tauto|].
  destruct (isWhiteSpace c); cbn; [exact IH|]. split; discriminate.
Qed.

Lemma trimStart_keeps_last cs c :
  isWhiteSpace c = false -> trimStart (cs ++ [c]) <> [].
Proof.
  intros Hc. induction cs as [|d cs IH]; cbn.
  - rewrite Hc. discriminate.
  - destruct (isWhiteSpace d); [exact IH | discriminate].
Qed.

Lemma falsy_string_of_list cs :
  falsy (string_of_list_ascii cs) = true <-> cs = [].
Proof. destruct cs; cbn; split; congruence. Qed.

(** [!text.trim()] holds exactly for text made of white space only. *)
Lemma falsy_trim t :
  falsy (trim t) = forallb isWhiteSpace (list_ascii_of_string t).
Proof.
  unfold trim. set (cs := list_ascii_of_string t).
  destruct (forallb isWhiteSpace cs) eqn:E.
  - apply trimStart_nil in E. rewrite E. reflexivity.
  - destruct (falsy _) eqn:F; [|reflexivity].
    apply falsy_string_of_list in F.
    destruct (trimStart cs) as [|c rest] eqn:T.
    + apply trimStart_nil in T. congruence.
    + assert (Hc : isWhiteSpace c = false).
      { clear -T. induction cs as [|d cs IH]; [discriminate|].
        cbn in T. destruct (isWhiteSpace d) eqn:D; [auto|].
        injection T as <- _. exact D. }
      exfalso. cbn [rev] in F.
      apply (f_equal (@rev ascii)) in F. rewrite rev_involutive in F.
      cbn in F. apply (trimStart_keeps_last _ _ Hc F).
Qed.

Lemma Speaker_eqb_eq a b : Speaker_eqb a b = true <-> a = b.
Proof. destruct a, b; cbn; split; congruence. Qed.

(** C6: a delta of another speaker commits the open utterance exactly
    when its text is not white space only and then opens an utterance
    for the new speaker; a delta of the same speaker only appends.
    The two sample sequences of the design document behave as it
    says. *)
Theorem delta_commits_on_speaker_change (e : env) (st : state)
  (s : Speaker) (acc : string) (who : Speaker) (t : string)
  (isFinal : bool) :
  currentTranscript st = Some (s, acc) ->
  let st' := onTranscriptUpdate e who t isFinal st in
  (s = who ->
     st' = setCurrentTranscript (Some (s, (acc ++ t)%string)) st
     /\ messages st' = messages st)
  /\ (s <> who ->
        currentTranscript st' = Some (who, t)
        /\ (falsy (trim acc) = false ->
              history st' = history st ++ [(s, acc)])
        /\ (falsy (trim acc) = true -> messages st' = messages st)
        /\ (falsy (trim acc) = true
            <-> forallb isWhiteSpace (list_ascii_of_string acc) = true))
  /\ (let r := deltas e [(User, "a"); (User, "b"); (Coach, "c")]%string
                 initial in
      history r = [(User, "ab"%string)]
      /\ currentTranscript r = Some (Coach, "c"%string))
  /\ (let r := deltas e [(User, " "); (Coach, "x")]%string initial in
      history r = [] /\ currentTranscript r = Some (Coach, "x"%string)).
Proof.
  intros Hcur st'. subst st'. unfold onTranscriptUpdate. rewrite Hcur.
  split; [|split; [|split]].
  - intros <-. replace (Speaker_eqb s s) with true
      by (symmetry; now apply Speaker_eqb_eq).
    split; reflexivity.
  - intros Hne. destruct (Speaker_eqb s who) eqn:E.
    { apply Speaker_eqb_eq in E. contradiction. }
    split; [reflexivity|]. split; [|split].
    + intros Hf. unfold setCurrentTranscript, history. cbn [messages].
      unfold addMessageToHistory. rewrite Hf. cbn.
      now rewrite List.map_app.
    + intros Hf. unfold setCurrentTranscript. cbn [messages].
      unfold addMessageToHistory. now rewrite Hf.
    + now rewrite falsy_trim.
  - split; reflexivity.
  - split; reflexivity.
Qed.

Lemma delta_commits_on_speaker_change_witness :
  let e := {| now_id := 1700000000000; now_timestamp := 1700000000000;
              currentTime := 0; suspended := false |} in
  let st := setCurrentTranscript (Some (User, "hi "%string)) initial in
  history (onTranscriptUpdate e Coach "ok" false st) = [(User, "hi "%string)].
Proof.
  intros e st.
  destruct (delta_commits_on_speaker_change e st User "hi " Coach "ok" false)
    as (_ & H & _); [reflexivity|].
  destruct H as (_ & H & _); [discriminate|].
  apply H. reflexivity.
Defined.

(** The only callback [disconnect()] invokes is [onClose]. *)
Lemma deliver_disconnect e s st :
  deliver e (snd (Session.disconnect s)) st = onClose st.
Proof. destruct s as [[?|] [?|] [?|] [?|] c]; reflexivity. Qed.



End TranscriptFacts.

(* ------------------------------------------------------------------ *)
(** ** The session lifecycle                                            *)
(* ------------------------------------------------------------------ *)

Section SessionFacts.

Import Session.

Lemma count_app e tr1 tr2 :
  count e (tr1 ++ tr2) = (count e tr1 + count e tr2)%nat.
Proof. unfold count. now rewrite List.filter_app, length_app. Qed.

Lemma handleMessage_devices m d :
  count (Acquire d) (handleMessage m) = O
  /\ count (Release d) (handleMessage m) = O.
Proof. destruct m as [[[|]|] [[|]|] [[|]|]], d; split; reflexivity. Qed.

Lemma handleMessage_no_close m : count (Call OnClose) (handleMessage m) = O.
Proof. destruct m as [[[|]|] [[|]|] [[|]|]]; reflexivity. Qed.

(** [disconnect()] notifies once, releases what is held, holds nothing
    afterwards. *)
Lemma disconnect_effects s :
  count (Call OnClose) (snd (disconnect s)) = 1%nat
  /\ (forall d, held d (fst (disconnect s)) = false)
  /\ (forall d, count (Release d) (snd (disconnect s))
                = if held d s then 1%nat else O)
  /\ (forall d, count (Acquire d) (snd (disconnect s)) = O)
  /\ isConnected (fst (disconnect s)) = false
  /\ activeSession (fst (disconnect s)) = None.
Proof.
  destruct s as [[?|] [?|] [?|] [?|] c]; cbn;
    repeat split; intros []; reflexivity.
Qed.

Ltac break_service l :=
  let s := fresh "s" in
  destruct l as [s ?];
  destruct s as [[?|] [?|] [?|] [?|] [|]].

Lemma step_onClose l e l' eff :
  step l e = Some (l', eff) ->
  count (Call OnClose) eff = if tears_down l e then 1%nat else O.
Proof.
  destruct e as [[|]| | |[|]| | | | | | |m];
    try (break_service l; destruct pc0; cbn; intros [= <- <-]; reflexivity).
  break_service l; destruct pc0; cbn; intros [= <- <-];
    apply handleMessage_no_close.
Qed.

Lemma run_app_trace evs :
  forall l l' tr,
    run evs l = Some (l', tr) ->
    count (Call OnClose) tr = teardowns evs l.
Proof.
  induction evs as [|e rest IH]; intros l l' tr; cbn.
  - intros [= <- <-]. reflexivity.
  - destruct (step l e) as [[l1 eff1]|] eqn:S; [|discriminate].
    destruct (run rest l1) as [[l2 eff2]|] eqn:R; [|discriminate].
    intros [= <- <-]. rewrite count_app.
    rewrite (step_onClose _ _ _ _ S), (IH _ _ _ R). reflexivity.
Qed.

(** C1, as stated, fails: an explicit [disconnect()] followed by the
    transport's own close event invokes [onClose] twice. *)
Lemma onClose_fires_twice :
  option_map (fun r => count (Call OnClose) (snd r))
    (run [Connect true; MicGranted; SessionOpened false;
          Disconnect; RemoteClose] init)
  = Some 2%nat.
Proof. reflexivity. Qed.

(** C1 (amended): every run of [disconnect()] invokes [onClose] exactly
    once, and nothing else invokes it; so over a session lifecycle
    [onClose] is invoked once for each teardown trigger (explicit call,
    remote close, transport error, failure during connect) that
    occurs. *)
Theorem onClose_once_per_teardown (evs : list event)
  (l0 l : lifecycle) (tr : list effect) :
  run evs l0 = Some (l, tr) ->
  count (Call OnClose) tr = teardowns evs l0
  /\ (forall s, count (Call OnClose) (snd (disconnect s)) = 1%nat).
Proof.
  intros R. split; [exact (run_app_trace _ _ _ _ R)|].
  intros s. apply disconnect_effects.
Qed.

Lemma onClose_once_per_teardown_witness :
  count (Call OnClose)
    [Acquire InputContext; Acquire Microphone; Acquire ScriptProcessor;
     SessionClose; Release Microphone; Release ScriptProcessor;
     Release InputContext; Call OnClose]
  = teardowns [Connect true; MicGranted; SessionOpened false; RemoteClose]
      init.
Proof.
  apply (onClose_once_per_teardown
           [Connect true; MicGranted; SessionOpened false; RemoteClose]
           init
           {| svc := Session.new; pc := Finished |}).
  reflexivity.
Defined.

Lemma budget_le_1 c d : (budget c d <= 1)%nat.
Proof. destruct c, d; cbn; lia. Qed.

Lemma step_balanced l e l' eff tr :
  balanced l tr -> step l e = Some (l', eff) -> balanced l' (tr ++ eff).
Proof.
  intros B S d. specialize (B d). rewrite !count_app.
  destruct e as [[|]| | |[|]| | | | | | |m].
  all: try (break_service l; destruct pc0; cbn in S; try discriminate;
            injection S as <- <-; destruct d; cbn in *; lia).
  break_service l; destruct pc0; cbn in S; try discriminate;
    injection S as <- <-;
    destruct (handleMessage_devices m d) as [-> ->];
    destruct d; cbn in *; lia.
Qed.

Lemma run_balanced evs :
  forall l tr0 l' tr,
    balanced l tr0 -> run evs l = Some (l', tr) -> balanced l' (tr0 ++ tr).
Proof.
  induction evs as [|e rest IH]; intros l tr0 l' tr B; cbn.
  - intros [= <- <-]. now rewrite app_nil_r.
  - destruct (step l e) as [[l1 eff1]|] eqn:S; [|discriminate].
    destruct (run rest l1) as [[l2 eff2]|] eqn:R; [|discriminate].
    intros [= <- <-]. rewrite app_assoc.
    eapply IH; [|exact R]. eapply step_balanced; eauto.
Qed.

Lemma init_balanced : balanced init [].
Proof. intros []; cbn; lia. Qed.

Lemma teardown_releases_all l e l' eff d :
  tears_down l e = true -> step l e = Some (l', eff) ->
  held d (svc l') = false.
Proof.
  destruct e as [[|]| | |[|]| | | | | | |m];
    break_service l; destruct pc0; cbn; try discriminate;
    intros _ [= <- <-]; destruct d; reflexivity.
Qed.

(** A [disconnect()] that arrives while [connect()] still waits for the
    microphone: the stream granted afterwards is released when the
    cancelled session reports its close. *)
Example disconnect_during_connect :
  option_map snd
    (run [Connect true; Disconnect; MicGranted; SessionOpened false;
          RemoteClose] init)
  = Some [Acquire InputContext; Release InputContext; Call OnClose;
          Acquire Microphone; SessionClose; SessionClose;
          Release Microphone; Call OnClose].
Proof. reflexivity. Qed.

(** What the code does guarantee about its handles: along every
    lifecycle of a service instance each device handle is acquired at
    most once and released at most once, and it is held exactly while it
    has been acquired and not yet released.  Every event that runs
    [disconnect()] (explicit call, remote close, transport error,
    failure during connect) leaves no handle held at that moment, so
    that each handle acquired so far has then been released exactly
    once; a further [disconnect()] releases nothing.  This bounds the
    state right after a teardown only: a handle acquired later is not
    covered. *)
Theorem handles_released_exactly_once (evs : list event)
  (l : lifecycle) (tr : list effect) :
  run evs init = Some (l, tr) ->
  forall d,
    (count (Acquire d) tr <= 1)%nat
    /\ (count (Release d) tr + (if held d (svc l) then 1 else 0)
        = count (Acquire d) tr)%nat
    /\ (forall e l' eff,
           tears_down l e = true -> step l e = Some (l', eff) ->
           held d (svc l') = false
           /\ count (Release d) (tr ++ eff) = count (Acquire d) (tr ++ eff)
           /\ count (Release d) (snd (disconnect (svc l'))) = O).
Proof.
  intros R d.
  pose proof (run_balanced _ _ [] _ _ init_balanced R) as B. cbn in B.
  destruct (B d) as [B1 B2].
  split; [pose proof (budget_le_1 (pc l) d); lia|].
  split; [exact B2|].
  intros e l' eff T S.
  pose proof (teardown_releases_all _ _ _ _ d T S) as H.
  pose proof (step_balanced _ _ _ _ _ B S d) as [_ B'].
  rewrite H in B'. split; [exact H|]. split; [lia|].
  destruct (disconnect_effects (svc l')) as (_ & _ & Hrel & _).
  rewrite Hrel, H. reflexivity.
Qed.

Lemma handles_released_exactly_once_witness :
  count (Release Microphone)
    ([Acquire InputContext; Acquire Microphone; Acquire ScriptProcessor]
       ++ [SessionClose; Release Microphone; Release ScriptProcessor;
           Release InputContext; Call OnClose])
  = count (Acquire Microphone)
      ([Acquire InputContext; Acquire Microphone; Acquire ScriptProcessor]
         ++ [SessionClose; Release Microphone; Release ScriptProcessor;
             Release InputContext; Call OnClose]).
Proof.
  refine (proj1 (proj2 (proj2 (proj2
    (handles_released_exactly_once
       [Connect true; MicGranted; SessionOpened false]
       {| svc := {| activeSession := Some liveSession;
                    inputAudioContext := Some audioContextHandle;
                    stream := Some mediaStream;
                    processor := Some scriptProcessorNode;
                    isConnected := true |};
          pc := Finished |}
       [Acquire InputContext; Acquire Microphone; Acquire ScriptProcessor]
       _ Microphone))
    Disconnect
    {| svc := Session.new; pc := Finished |}
    [SessionClose; Release Microphone; Release ScriptProcessor;
     Release InputContext; Call OnClose]
    _ _))); reflexivity.
Defined.


End SessionFacts.

(* ------------------------------------------------------------------ *)
(** ** A chunk that fails to decode                                     *)
(* ------------------------------------------------------------------ *)

Section DecodeFailure.

Import Player.

Lemma initContext_idem susp susp' p :
  initContext susp' (fst (initContext susp p)) = initContext susp' p.
Proof.
  unfold initContext. destruct (audioContext p) eqn:E; cbn; rewrite ?E;
    reflexivity.
Qed.

Lemma queueAudio_after_initContext susp t' susp' a' p :
  queueAudio t' susp' a' (fst (initContext susp p))
  = queueAudio t' susp' a' p.
Proof. unfold queueAudio. now rewrite initContext_idem. Qed.

(** C7, as stated, fails: with two channels a payload of 6 bytes is not
    a whole number of frames, and it decodes (to one frame). *)
Lemma decode_accepts_partial_frame :
  (length [x01; x00; x02; x00; xff; xff] mod (2 * 2) <> 0)%nat
  /\ decodeAudioData [x01; x00; x02; x00; xff; xff] 24000 2
     = inr {| numberOfChannels := 2; frames := 1; sampleRate := 24000;
              channels := [[Num (1 # 32768)]; [Num (2 # 32768)]] |}.
Proof. split; [discriminate | reflexivity]. Qed.

(** End to end: a connected session receives a chunk of three bytes,
    which fails to decode, then a chunk of two bytes.  The service stays
    connected and the second chunk is scheduled and reported as playing. *)
Example malformed_chunk_then_valid_chunk :
  let e := {| App.now_id := 0; App.now_timestamp := 0;
              App.currentTime := 3; App.suspended := false |} in
  let audio d := {| Session.inlineData := Some d;
                    Session.outputTranscription := None;
                    Session.inputTranscription := None |} in
  let connected :=
    App.transport e (Session.SessionOpened false)
      (App.transport e Session.MicGranted
         (App.handleStartSession e true App.initial)) in
  let st :=
    App.transport e (Session.ServerMessage (audio "AAA="%string))
      (App.transport e (Session.ServerMessage (audio "AAAA"%string))
         connected) in
  decoded "AAAA" = None
  /\ option_map (fun l => Session.isConnected (Session.svc l))
       (App.liveSession st) = Some true
  /\ List.map startTime (sources (App.audioPlayer st)) = [3%Q]
  /\ isSpeaking (App.sessionState st) = true.
Proof. vm_compute. repeat split. Qed.

(** C7 (amended): decoding a chunk for 1 to 32 channels, at a sample
    rate every platform supports (8000 to 96000 Hz, the player's 24000
    among them), fails exactly when its byte length is odd or less than
    one frame (2 bytes per channel); for the mono decoding the player
    performs, that is: when the length is odd or zero.  Such a failure
    is local to the chunk:
    [queueAudio] leaves cursor, active set and playing flag as they
    were and notifies nobody, every later call behaves as if the chunk
    had never arrived, and delivering a server message neither changes
    the service nor invokes [onClose]. *)
Theorem decode_failure_is_local (data : list byte) (rate nc : Z) :
  1 <= nc <= maxChannels -> minSampleRate <= rate <= maxSampleRate ->
  ((exists e, decodeAudioData data rate nc = inl e)
   <-> (Nat.even (length data) = false
        \/ Z.of_nat (length data) < 2 * nc))
  /\ (forall t susp a p,
         snd (queueAudio t susp a p) <> None ->
         let p1 := fst (fst (queueAudio t susp a p)) in
         nextStartTime p1 = nextStartTime p
         /\ sources p1 = sources p
         /\ isPlaying p1 = isPlaying p
         /\ snd (fst (queueAudio t susp a p))
            = (if susp then [CtxResume] else [])
         /\ (forall t' susp' a',
                queueAudio t' susp' a' p1 = queueAudio t' susp' a' p))
  /\ (forall l m,
         Session.wired (Session.pc l) = true ->
         Session.step l (Session.ServerMessage m)
         = Some (l, Session.handleMessage m)
         /\ Session.count (Session.Call Session.OnClose)
              (Session.handleMessage m) = O)
  /\ (forall e d st,
         App.liveSession (App.onAudioData e d st) = App.liveSession st
         /\ App.messages (App.onAudioData e d st) = App.messages st
         /\ App.currentTranscript (App.onAudioData e d st)
            = App.currentTranscript st).
Proof.
  intros Hnc Hrate.
  split; [now apply decodeAudioData_fails_iff|].
  split; [|split].
  - intros t susp a p Hko p1. subst p1.
    destruct (queueAudio_failure _ _ _ _ Hko) as [_ E]. rewrite E.
    destruct (initContext_cursor susp p) as (C1 & C2 & C3 & _).
    repeat split; auto.
    intros. apply queueAudio_after_initContext.
  - intros l m Hw. split; [|apply handleMessage_no_close].
    unfold Session.step. destruct (Session.pc l); try discriminate;
      reflexivity.
  - intros e d st. repeat split.
Qed.

Lemma decode_failure_is_local_witness :
  ((exists e, decodeAudioData [x01; x00; x02] 24000 1 = inl e)
   <-> (Nat.even (length [x01; x00; x02]) = false
        \/ Z.of_nat (length [x01; x00; x02]) < 2 * 1))
  /\ sources (fst (fst (queueAudio 7 false "AAAA" (Player.new true)))) = []
  /\ queueAudio 8 false "AAA="
       (fst (fst (queueAudio 7 false "AAAA" (Player.new true))))
     = queueAudio 8 false "AAA=" (Player.new true).
Proof.
  destruct (decode_failure_is_local [x01; x00; x02] 24000 1)
    as (Hiff & Hlocal & _).
  - unfold maxChannels. lia.
  - unfold minSampleRate, maxSampleRate. lia.
  - split; [exact Hiff|].
    destruct (Hlocal 7%Q false "AAAA"%string (Player.new true))
      as (_ & Hsrc & _ & _ & Hnext).
    + vm_compute. discriminate.
    + split; [exact Hsrc | apply Hnext].
Defined.

End DecodeFailure.

(* ------------------------------------------------------------------ *)
(** ** More on the PCM codec                                            *)
(* ------------------------------------------------------------------ *)

Section CodecMore.

Local Ltac Zify.zify_post_hook ::= Z.to_euclidean_division_equations.

Lemma Qtrunc_floor y : (0 <= y)%Q -> Qtrunc y = Qfloor y.
Proof.
  intros Hy. destruct y as [n d]. unfold Qtrunc, Qfloor. cbn.
  apply Z.quot_div_nonneg; [|lia].
  unfold Qle in Hy. cbn in Hy. lia.
Qed.

Lemma Qtrunc_ceiling y : (y <= 0)%Q -> Qtrunc y = Qceiling y.
Proof.
  intros Hy. destruct y as [n d]. unfold Qtrunc, Qceiling, Qfloor, Qopp. cbn.
  unfold Qle in Hy. cbn in Hy.
  rewrite <- (Z.opp_involutive n) at 1.
  rewrite Z.quot_opp_l by lia. f_equal.
  apply Z.quot_div_nonneg; lia.
Qed.

(** Truncation keeps the order. *)
Lemma Qtrunc_le a b : (a <= b)%Q -> Qtrunc a <= Qtrunc b.
Proof.
  intros Hab.
  destruct (Qlt_le_dec a 0) as [Ha|Ha]; destruct (Qlt_le_dec b 0) as [Hb|Hb].
  - rewrite !Qtrunc_ceiling by lra. now apply Qceiling_resp_le.
  - rewrite (Qtrunc_ceiling a), (Qtrunc_floor b) by lra.
    pose proof (Qceiling_resp_le a 0 ltac:(lra)) as H1.
    pose proof (Qfloor_resp_le 0 b Hb) as H2.
    change (Qceiling 0) with 0 in H1. change (Qfloor 0) with 0 in H2. lia.
  - lra.
  - rewrite !Qtrunc_floor by lra. now apply Qfloor_resp_le.
Qed.

Lemma Qtrunc_eq a b : (a == b)%Q -> Qtrunc a = Qtrunc b.
Proof.
  intros E. apply Z.le_antisymm; apply Qtrunc_le; rewrite E; apply Qle_refl.
Qed.

Lemma Qtrunc_inject z : Qtrunc (inject_Z z) = z.
Proof. unfold Qtrunc, inject_Z. cbn. apply Z.quot_1_r. Qed.

Lemma Qtrunc_between a b y :
  (inject_Z a <= y)%Q -> (y <= inject_Z b)%Q -> a <= Qtrunc y <= b.
Proof.
  intros Ha Hb.
  pose proof (Qtrunc_le _ _ Ha) as H1. pose proof (Qtrunc_le _ _ Hb) as H2.
  rewrite Qtrunc_inject in H1, H2. lia.
Qed.

Lemma clamp_range q :
  (-1 <= Qmax (-1) (Qmin 1 q))%Q /\ (Qmax (-1) (Qmin 1 q) <= 1)%Q.
Proof.
  split; [apply Q.le_max_l|].
  apply Q.max_lub; [discriminate | apply Q.le_min_l].
Qed.

Lemma clamp_le x y :
  (x <= y)%Q -> (Qmax (-1) (Qmin 1 x) <= Qmax (-1) (Qmin 1 y))%Q.
Proof.
  intros H. apply Q.max_le_compat_l. now apply Q.min_le_compat_l.
Qed.

(** The store into the [Int16Array] never wraps: after clamping, the
    scaled sample is already a 16-bit value. *)
Lemma quantize_Num q :
  quantize (Num q)
  = let s := Qmax (-1) (Qmin 1 q) in
    Qtrunc (if Qlt_le_dec s 0 then s * 32768 else s * 32767)%Q.
Proof.
  unfold quantize, Math_min, Math_max, ToInt16. cbn zeta.
  destruct (clamp_range q) as [Hlo Hhi].
  set (s := Qmax (-1) (Qmin 1 q)) in *. clearbody s.
  destruct (Qlt_le_dec s 0) as [Hneg|Hpos]; apply wrap_int16_id;
    apply (Qtrunc_between (-32768) 32767);
    change (inject_Z (-32768)) with (-32768 # 1)%Q;
    change (inject_Z 32767) with (32767 # 1)%Q; lra.
Qed.

Lemma quantize_le (x y : Q) :
  (x <= y)%Q -> quantize (Num x) <= quantize (Num y).
Proof.
  intros Hxy. rewrite !quantize_Num. cbn zeta.
  pose proof (clamp_le x y Hxy) as Hs.
  destruct (clamp_range x) as [Hx1 Hx2]. destruct (clamp_range y) as [Hy1 Hy2].
  set (sx := Qmax (-1) (Qmin 1 x)) in *. set (sy := Qmax (-1) (Qmin 1 y)) in *.
  clearbody sx sy.
  apply Qtrunc_le.
  destruct (Qlt_le_dec sx 0), (Qlt_le_dec sy 0); lra.
Qed.

(** X3: quantization keeps the order of samples: a larger sample never
    gets a smaller 16-bit value, for in-range and out-of-range samples
    alike. *)
Theorem quantize_monotone (x y : Q) :
  (x <= y)%Q -> quantize (Num x) <= quantize (Num y).
Proof. apply quantize_le. Qed.

Lemma quantize_monotone_witness :
  quantize (Num (-3 # 2)) <= quantize (Num (1 # 3)).
Proof. apply (quantize_monotone (-3 # 2) (1 # 3)). discriminate. Defined.

(** X2: samples outside [-1, 1] saturate instead of wrapping around: a
    sample of 1 or more is stored as 32767, a sample of -1 or less as
    -32768; NaN is stored as 0, and every stored value is 16-bit. *)
Theorem quantize_saturates (q : Q) :
  ((1 <= q)%Q -> quantize (Num q) = 32767)
  /\ ((q <= -1)%Q -> quantize (Num q) = -32768)
  /\ is_int16 (quantize (Num q))
  /\ quantize NaN = 0.
Proof.
  pose proof (quantize_int16 (Num q)) as [Hlo Hhi].
  repeat split; auto.
  - intros H. pose proof (quantize_le 1 q H) as M.
    change (quantize (Num 1)) with 32767 in M. lia.
  - intros H. pose proof (quantize_le q (-1) H) as M.
    change (quantize (Num (-1))) with (-32768) in M. lia.
Qed.

Lemma quantize_saturates_witness :
  quantize (Num (5 # 2)) = 32767 /\ quantize (Num (-7)) = -32768.
Proof.
  split.
  - apply (quantize_saturates (5 # 2)). discriminate.
  - apply (quantize_saturates (-7)). discriminate.
Defined.

Lemma Uint8Array_of_int16_length vs :
  length (Uint8Array_of_int16 vs) = (2 * length vs)%nat.
Proof.
  unfold Uint8Array_of_int16.
  induction vs as [|v vs IH]; cbn in *; [reflexivity|]. rewrite IH. lia.
Qed.

(** X1: the base64 frame made from a block of samples decodes to exactly
    two bytes per sample, and these bytes, read as little-endian 16-bit
    integers, are the quantized samples in their original order. *)
Theorem encoded_frame_bytes (xs : Float32Array) :
  decode (float32ToPCM16 xs)
  = inr (Uint8Array_of_int16 (List.map quantize xs))
  /\ length (Uint8Array_of_int16 (List.map quantize xs))
     = (2 * length xs)%nat
  /\ Int16Array_of_buffer (Uint8Array_of_int16 (List.map quantize xs))
     = Some (List.map quantize xs).
Proof.
  split; [apply decode_binary|]. split.
  - now rewrite Uint8Array_of_int16_length, length_map.
  - apply Int16Array_of_Uint8Array.
    apply List.Forall_forall. intros v [x [<- _]]%in_map_iff.
    apply quantize_int16.
Qed.

Lemma Z_between a n :
  (inject_Z a - 2 < inject_Z n)%Q -> (inject_Z n < inject_Z a)%Q ->
  n = a - 1.
Proof.
  intros H1 H2.
  assert (H : (inject_Z (a + -2) < inject_Z n)%Q).
  { rewrite inject_Z_plus. change (inject_Z (-2)) with (-2 # 1)%Q. lra. }
  rewrite <- Zlt_Qlt in H, H2. lia.
Qed.

(** X5: decoding a 16-bit value and encoding it again does not always
    give the value back: values up to 0 are kept, every positive value
    comes back one step lower (it is scaled by 32767 after having been
    divided by 32768). *)
Theorem requantize (v : Z) :
  is_int16 v ->
  quantize (Num (dequantize v)) = if v <=? 0 then v else v - 1.
Proof.
  intros Hv. rewrite quantize_Num. cbn zeta.
  pose proof (sample_in_unit_range v Hv) as [Hlo Hhi].
  fold (dequantize v) in Hlo, Hhi.
  assert (Hd : (dequantize v * 32768 == inject_Z v)%Q).
  { unfold dequantize. field. }
  pose proof (clamp_id (dequantize v) Hlo ltac:(lra)) as Hs.
  destruct Hv as [Hv1 Hv2]. rewrite Zle_Qle in Hv1, Hv2.
  change (inject_Z (-32768)) with (-32768 # 1)%Q in Hv1.
  change (inject_Z 32767) with (32767 # 1)%Q in Hv2.
  set (s := Qmax (-1) (Qmin 1 (dequantize v))) in *. clearbody s.
  destruct (Qlt_le_dec s 0) as [Hneg|Hpos].
  - assert (Hvn : v < 0).
    { rewrite Zlt_Qlt. change (inject_Z 0) with 0%Q. lra. }
    destruct (Z.leb_spec v 0); [|lia].
    transitivity (Qtrunc (inject_Z v)); [|apply Qtrunc_inject].
    apply Qtrunc_eq. lra.
  - assert (Hvp : 0 <= v).
    { rewrite Zle_Qle. change (inject_Z 0) with 0%Q. lra. }
    destruct (Z.leb_spec v 0) as [Hz|Hz].
    + assert (v = 0) by lia. subst v.
      transitivity (Qtrunc (inject_Z 0)); [|apply Qtrunc_inject].
      apply Qtrunc_eq. change (inject_Z 0) with 0%Q in *. lra.
    + rewrite Zlt_Qlt in Hz. change (inject_Z 0) with 0%Q in Hz.
      destruct (Qtrunc_nonneg (s * 32767)) as [T1 T2]; [lra|].
      apply Z_between; lra.
Qed.

Lemma requantize_witness :
  quantize (Num (dequantize 12345)) = 12344
  /\ quantize (Num (dequantize (-12345))) = -12345.
Proof.
  split.
  - apply (requantize 12345). unfold is_int16. lia.
  - apply (requantize (-12345)). unfold is_int16. lia.
Defined.

Lemma fill_channels_length (F : nat -> Float32Array -> Float32Array) cs :
  forall chans : list Float32Array,
    length
      (fold_left
         (fun (acc : list Float32Array) c =>
            match acc !! c with
            | Some cd => <[c := F c cd]> acc
            | None => acc
            end) cs chans)
    = length chans.
Proof.
  induction cs as [|c cs IH]; intros chans; cbn [fold_left]; [reflexivity|].
  rewrite IH. destruct (chans !! c); [apply length_insert | reflexivity].
Qed.

Lemma fill_channels_lookup (F : nat -> Float32Array -> Float32Array) k :
  forall (chans : list Float32Array) j,
    fold_left
      (fun (acc : list Float32Array) c =>
         match acc !! c with
         | Some cd => <[c := F c cd]> acc
         | None => acc
         end) (seq 0 k) chans !! j
    = if decide (j < k)%nat then option_map (F j) (chans !! j) else chans !! j.
Proof.
  induction k as [|k IH]; intros chans j.
  - cbn. destruct (decide _); [lia|reflexivity].
  - rewrite seq_S, fold_left_app. cbn [fold_left Nat.add].
    set (acc := fold_left _ (seq 0 k) chans).
    assert (Hacc : forall i, acc !! i
              = if decide (i < k)%nat then option_map (F i) (chans !! i)
                else chans !! i) by (intros i; apply IH).
    assert (Hlen : length acc = length chans)
      by apply fill_channels_length.
    clearbody acc.
    destruct (acc !! k) as [cd|] eqn:Ek.
    + pose proof (Hacc k) as Hk. rewrite Ek in Hk.
      destruct (decide (k < k)%nat); [lia|].
      destruct (decide (j = k)) as [->|Hne].
      * rewrite list_lookup_insert_eq by (apply lookup_lt_is_Some; eauto).
        destruct (decide _); [|lia]. now rewrite <- Hk.
      * rewrite list_lookup_insert_ne by auto. rewrite Hacc.
        destruct (decide (j < k)%nat), (decide (j < S k)%nat);
          try reflexivity; lia.
    + pose proof (Hacc k) as Hk. rewrite Ek in Hk.
      destruct (decide (k < k)%nat); [lia|].
      rewrite Hacc.
      destruct (decide (j < k)%nat), (decide (j < S k)%nat);
        try reflexivity; try lia.
      assert (j = k) by lia. subst j. now rewrite <- Hk.
Qed.

Lemma sample_at_nth vs k :
  (k < length vs)%nat -> sample_at vs k = Num (dequantize (nth k vs 0)).
Proof.
  intros Hk. unfold sample_at.
  destruct (lookup_lt_is_Some_2 vs k Hk) as [v Hv]. rewrite Hv.
  now rewrite (nth_lookup_Some _ _ _ _ Hv).
Qed.

Lemma fill_channel_deinterleaves vs n c iters len :
  (len <= iters)%nat -> (len * n <= length vs)%nat -> (c < n)%nat ->
  fill_channel vs n c iters (replicate len (Num 0))
  = List.map (fun i => Num (dequantize (nth (i * n + c) vs 0))) (seq 0 len).
Proof.
  intros Hit Hlen Hc. apply list_eq. intros i. unfold fill_channel.
  rewrite (fill_lookup (fun i => sample_at vs (i * n + c))).
  rewrite length_replicate, lookup_map.
  destruct (decide _) as [[_ Hi]|N].
  - rewrite lookup_seq_lt by exact Hi. cbn.
    rewrite sample_at_nth by nia. reflexivity.
  - rewrite lookup_seq_ge by lia.
    apply lookup_replicate_None. lia.
Qed.

(** X4: a payload the decoder accepts is split by channel.  The buffer
    has the requested channel count and rate, its frame count is the
    number of 16-bit samples divided by the channel count (rounded
    down), and sample [i] of channel [c] is 16-bit sample
    [i * numChannels + c] of the payload divided by 32768; the samples of
    an incomplete last frame are dropped. *)
Theorem decodeAudioData_deinterleaves (data : list byte)
  (rate numChannels : Z) (b : AudioBuffer) :
  decodeAudioData data rate numChannels = inr b ->
  exists vs,
    Int16Array_of_buffer data = Some vs
    /\ length data = (2 * length vs)%nat
    /\ numberOfChannels b = numChannels
    /\ sampleRate b = rate
    /\ frames b = Z.of_nat (length vs) / numChannels
    /\ channels b
       = deinterleave vs (Z.to_nat numChannels) (Z.to_nat (frames b)).
Proof.
  unfold decodeAudioData.
  pose proof (Int16Array_of_buffer_spec data) as Hview.
  destruct (Int16Array_of_buffer data) as [vs|]; [|discriminate].
  destruct Hview as (_ & Hlen & _).
  destruct (createBuffer _ _ _) as [e|b0] eqn:E; [discriminate|].
  intros [= <-]. cbn [numberOfChannels frames sampleRate channels].
  apply createBuffer_inr in E.
  destruct E as (Hnc & Hfr & _ & -> & -> & -> & ->).
  exists vs. rewrite Qtrunc_div in * by lia.
  repeat split; auto.
  set (L := Z.of_nat (length vs)) in *.
  assert (Hiters : (Z.to_nat (L / numChannels)
                    <= Z.to_nat (Qceiling (inject_Z L / inject_Z numChannels)))%nat).
  { rewrite Qceiling_div by lia. nia. }
  generalize dependent (Z.to_nat (Qceiling (inject_Z L / inject_Z numChannels))).
  intros iters Hiters.
  apply list_eq. intros j. unfold fill_channels, deinterleave.
  rewrite (fill_channels_lookup (fun c => fill_channel vs (Z.to_nat numChannels) c iters)).
  rewrite lookup_map.
  destruct (decide (j < Z.to_nat numChannels)%nat) as [Hj|Hj].
  - rewrite lookup_replicate_2, lookup_seq_lt by exact Hj. cbn.
    rewrite fill_channel_deinterleaves; auto. subst L. nia.
  - rewrite lookup_seq_ge by lia. apply lookup_replicate_None. lia.
Qed.

Lemma decodeAudioData_deinterleaves_witness :
  exists vs,
    Int16Array_of_buffer [x01; x00; x02; x00; x03; x00; x04; x00; x05; x00]
    = Some vs
    /\ channels
         {| numberOfChannels := 2; frames := 2; sampleRate := 24000;
            channels := [[Num (1 # 32768); Num (3 # 32768)];
                         [Num (2 # 32768); Num (4 # 32768)]] |}
       = deinterleave vs 2 2.
Proof.
  destruct (decodeAudioData_deinterleaves
              [x01; x00; x02; x00; x03; x00; x04; x00; x05; x00] 24000 2
              {| numberOfChannels := 2; frames := 2; sampleRate := 24000;
                 channels := [[Num (1 # 32768); Num (3 # 32768)];
                              [Num (2 # 32768); Num (4 # 32768)]] |})
    as (vs & Hv & _ & _ & _ & _ & Hc); [reflexivity|].
  exists vs. split; [exact Hv | exact Hc].
Defined.

End CodecMore.

(* ------------------------------------------------------------------ *)
(** ** Invariants of the playback scheduler                             *)
(* ------------------------------------------------------------------ *)

Section PlayerInvariants.

Import Player PlayerRun.

Lemma fire_queue_failure t susp a p :
  snd (queueAudio t susp a p) <> None ->
  sources (fst (fire (Queue t susp a) p)) = sources p
  /\ isPlaying (fst (fire (Queue t susp a) p)) = isPlaying p
  /\ created (fst (fire (Queue t susp a) p)) = created p
  /\ nextStartTime (fst (fire (Queue t susp a) p)) = nextStartTime p
  /\ onPlayStateChange (fst (fire (Queue t susp a) p)) = onPlayStateChange p
  /\ snd (fire (Queue t susp a) p) = if susp then [CtxResume] else [].
Proof.
  intros Hko. cbn [fire].
  destruct (queueAudio_failure _ _ _ _ Hko) as [_ E]. rewrite E.
  destruct (initContext_cursor susp p) as (C1 & C2 & C3 & C4 & C5).
  rewrite initContext_effects. auto 10.
Qed.

Lemma onended_sources id p :
  sources (fst (onended id p))
  = List.filter (fun s => negb (Nat.eqb (node_id s) id)) (sources p)
  /\ created (fst (onended id p)) = created p
  /\ nextStartTime (fst (onended id p)) = nextStartTime p
  /\ onPlayStateChange (fst (onended id p)) = onPlayStateChange p.
Proof.
  unfold onended. destruct (Nat.eqb _ 0); cbn; auto.
Qed.

Lemma NoDup_map_filter {A B} (f : A -> B) (P : A -> bool) l :
  NoDup (List.map f l) -> NoDup (List.map f (List.filter P l)).
Proof.
  induction l as [|a l IH]; cbn; [auto|]. intros H.
  apply NoDup_cons in H as [Hin Hnd].
  destruct (P a); cbn; [|auto].
  apply NoDup_cons. split; [|auto].
  intros Hc. apply Hin. apply list_elem_of_In in Hc. apply list_elem_of_In.
  apply in_map_iff in Hc as (x & Hx & Hxin).
  apply in_map_iff. exists x. split; [exact Hx|].
  apply List.filter_In in Hxin. tauto.
Qed.

Lemma Forall_filter_keep {A} (Q0 : A -> Prop) (P : A -> bool) l :
  Forall Q0 l -> Forall Q0 (List.filter P l).
Proof.
  induction 1 as [|a l Ha _ IH]; cbn; [constructor|].
  destruct (P a); [constructor|]; auto.
Qed.

Lemma active_consistent_fire ev p :
  active_consistent p -> active_consistent (fst (fire ev p)).
Proof.
  intros (Hplay & Hnd & Hlt). destruct ev as [t susp a|id|].
  - destruct (snd (queueAudio t susp a p)) as [e|] eqn:E.
    + assert (Hko : snd (queueAudio t susp a p) <> None) by congruence.
      destruct (fire_queue_failure _ _ _ _ Hko) as (Hs & Hp & Hc & _).
      unfold active_consistent. rewrite Hs, Hp, Hc. auto.
    + destruct (queueAudio_success _ _ _ _ E)
        as (b & _ & _ & Hsrc & _ & Hcr & Hpl & _).
      unfold queue, apply in *. cbn [fire]. unfold active_consistent.
      rewrite Hsrc, Hcr, Hpl. repeat split.
      * intros _. destruct (sources p); discriminate.
      * rewrite List.map_app. cbn [List.map node_id].
        apply NoDup_app. repeat split; [exact Hnd| |apply NoDup_singleton].
        intros x Hx Hc. apply list_elem_of_singleton in Hc. subst x.
        apply list_elem_of_In, in_map_iff in Hx as (n & Hn & Hin).
        rewrite List.Forall_forall in Hlt. specialize (Hlt n Hin). lia.
      * apply Forall_app. split.
        -- eapply Forall_impl; [exact Hlt|]. cbn. intros; lia.
        -- constructor; [cbn; lia | constructor].
  - cbn [fire]. destruct (onended_sources id p) as (Hs & Hc & _).
    unfold active_consistent. rewrite Hs, Hc. repeat split.
    + unfold onended.
      destruct (Nat.eqb_spec (length (List.filter
                  (fun s => negb (Nat.eqb (node_id s) id)) (sources p))) 0)
        as [E|E]; cbn [fst isPlaying]; [discriminate|].
      intros _ Hnil. rewrite Hnil in E. now apply E.
    + unfold onended.
      destruct (Nat.eqb_spec (length (List.filter
                  (fun s => negb (Nat.eqb (node_id s) id)) (sources p))) 0)
        as [E|E]; cbn [fst isPlaying].
      * intros Hne. destruct (List.filter _ _); [congruence|discriminate].
      * intros _. apply Hplay. intros Hnil. rewrite Hnil in E. now apply E.
    + now apply NoDup_map_filter.
    + now apply Forall_filter_keep.
  - unfold active_consistent. cbn.
    split; [split; [discriminate | intros H; now destruct H]|].
    split; constructor.
Qed.

Lemma active_consistent_new obs : active_consistent (Player.new obs).
Proof.
  unfold active_consistent. cbn.
  split; [split; [discriminate | intros E; now destruct E]|].
  split; constructor.
Qed.

Lemma active_consistent_play evs :
  forall p, active_consistent p -> active_consistent (fst (play evs p)).
Proof.
  induction evs as [|ev rest IH]; intros p Hp; [exact Hp|].
  cbn [play]. pose proof (active_consistent_fire ev p Hp) as H1.
  destruct (fire ev p) as [p1 e1]. specialize (IH p1 H1).
  destruct (play rest p1) as [p2 e2]. exact IH.
Qed.

(** X6: whatever sequence of [queueAudio] calls, [onended] events and
    [stop] calls the player goes through, [isPlaying] is true exactly
    while the active set is non-empty, and the sources in the active set
    are pairwise distinct. *)
Theorem player_active_consistent (evs : list event)
  (p : StreamAudioPlayer) :
  active_consistent p -> active_consistent (fst (play evs p)).
Proof. apply active_consistent_play. Qed.

Lemma player_active_consistent_witness :
  active_consistent
    (fst (play [Queue 1 false "AAA="; Queue 1 false "AAAAAA==";
                Ended 0; Queue 2 true "AAAA"; Ended 1]
               (Player.new true))).
Proof.
  apply (player_active_consistent
           [Queue 1 false "AAA="; Queue 1 false "AAAAAA==";
            Ended 0; Queue 2 true "AAAA"; Ended 1]
           (Player.new true)).
  apply active_consistent_new.
Defined.

Lemma in_sequence_filter (P : AudioBufferSourceNode -> bool) ns :
  in_sequence ns -> in_sequence (List.filter P ns).
Proof.
  induction ns as [|n ns IH]; cbn; [auto|]. intros [Hn Hrest].
  destruct (P n); cbn; [split|]; auto using Forall_filter_keep.
Qed.

Lemma in_sequence_snoc ns m :
  in_sequence ns ->
  Forall (fun n => (finish n <= startTime m)%Q) ns ->
  in_sequence (ns ++ [m]).
Proof.
  induction ns as [|n ns IH]; cbn; intros Hs Hall.
  - split; [constructor | exact I].
  - destruct Hs as [Hn Hrest]. inversion_clear Hall as [|? ? Hnm Hall'].
    split; [|auto]. apply Forall_app. split; [exact Hn|].
    constructor; [exact Hnm | constructor].
Qed.

Lemma non_overlapping_fire ev p :
  non_overlapping p -> non_overlapping (fst (fire ev p)).
Proof.
  intros (Hseq & Hall). destruct ev as [t susp a|id|].
  - destruct (snd (queueAudio t susp a p)) as [e|] eqn:E.
    + assert (Hko : snd (queueAudio t susp a p) <> None) by congruence.
      destruct (fire_queue_failure _ _ _ _ Hko) as (Hs & _ & _ & Hc & _).
      unfold non_overlapping. rewrite Hs, Hc. auto.
    + destruct (queueAudio_success _ _ _ _ E)
        as (b & _ & Hd & Hsrc & Hcur & _).
      unfold queue, apply in *. cbn [fire].
      unfold non_overlapping. rewrite Hsrc, Hcur.
      destruct (start_of_bounds t p) as [_ Hst].
      split.
      * apply in_sequence_snoc; [exact Hseq|].
        eapply Forall_impl; [exact Hall|]. cbn. intros n [_ Hn].
        cbn [startTime]. lra.
      * apply Forall_app. split.
        -- eapply Forall_impl; [exact Hall|]. cbn. intros n [H1 H2].
           split; [exact H1 | lra].
        -- constructor; [|constructor]. unfold finish. cbn [startTime buffer].
           split; lra.
  - cbn [fire]. destruct (onended_sources id p) as (Hs & _ & Hc & _).
    unfold non_overlapping. rewrite Hs, Hc.
    split; [now apply in_sequence_filter | now apply Forall_filter_keep].
  - cbn. split; [exact I | constructor].
Qed.

(** X7: the sources in the active set never overlap in time, whatever
    the arrival times of the chunks and however [onended] events and
    [stop] calls are interleaved: every source finishes no later than any
    source queued after it starts, plays for a positive time and ends no
    later than the cursor. *)
Theorem player_non_overlapping (evs : list event) (p : StreamAudioPlayer) :
  non_overlapping p -> non_overlapping (fst (play evs p)).
Proof.
  revert p. induction evs as [|ev rest IH]; intros p Hp; [exact Hp|].
  cbn [play]. pose proof (non_overlapping_fire ev p Hp) as H1.
  destruct (fire ev p) as [p1 e1]. specialize (IH p1 H1).
  destruct (play rest p1) as [p2 e2]. exact IH.
Qed.

Lemma player_non_overlapping_witness :
  non_overlapping
    (fst (play [Queue 1 false "AAA="; Queue 0 false "AAAAAA==";
                Queue 7 true "AAA="; Ended 1]
               (Player.new false))).
Proof.
  apply (player_non_overlapping
           [Queue 1 false "AAA="; Queue 0 false "AAAAAA==";
            Queue 7 true "AAA="; Ended 1]
           (Player.new false)).
  split; [exact I | constructor].
Defined.

Lemma observe_app e1 e2 ss :
  App.observe (e1 ++ e2) ss = App.observe e2 (App.observe e1 ss).
Proof. unfold App.observe. apply fold_left_app. Qed.

Lemma observe_fire ev p ss :
  onPlayStateChange p = true -> isSpeaking ss = isPlaying p ->
  isSpeaking (App.observe (snd (fire ev p)) ss) = isPlaying (fst (fire ev p))
  /\ isActive (App.observe (snd (fire ev p)) ss) = isActive ss
  /\ isProcessing (App.observe (snd (fire ev p)) ss) = isProcessing ss
  /\ onPlayStateChange (fst (fire ev p)) = true.
Proof.
  intros Hobs Hsync. destruct ev as [t susp a|id|].
  - destruct (snd (queueAudio t susp a p)) as [e|] eqn:E.
    + assert (Hko : snd (queueAudio t susp a p) <> None) by congruence.
      destruct (fire_queue_failure _ _ _ _ Hko) as (_ & -> & _ & _ & -> & ->).
      destruct susp; cbn; auto.
    + destruct (queueAudio_success _ _ _ _ E)
        as (b & _ & _ & _ & _ & _ & Hpl & Heff).
      unfold queue, apply in *. cbn [fire]. rewrite Hpl, Heff.
      assert (Ho : onPlayStateChange (fst (fst (queueAudio t susp a p))) = true).
      { destruct (queueAudio_cases t susp a p)
          as [(e & He & _)|(bs & b' & _ & _ & _ & H)]; [congruence|].
        rewrite H. unfold schedule. cbn [fst onPlayStateChange].
        destruct (initContext_cursor susp p) as (_ & _ & _ & _ & C).
        now rewrite C. }
      unfold notify. rewrite Hobs.
      destruct susp, (isPlaying p) eqn:P; cbn; rewrite ?Hsync; auto.
  - cbn [fire]. unfold onended, notify. rewrite Hobs.
    destruct (Nat.eqb _ 0); cbn; auto.
  - cbn [fire]. unfold stop, notify. rewrite Hobs. cbn [fst snd].
    rewrite observe_app. cbn.
    assert (H : forall l ss0,
              App.observe (List.map (fun s => SourceStop (node_id s)) l) ss0
              = ss0).
    { induction l as [|n l IH]; intros ss0; cbn; auto. }
    rewrite H. auto.
Qed.

(** X8: the observer installed by the application always knows the
    truth: after any sequence of [queueAudio] calls, [onended] events and
    [stop] calls, the [isSpeaking] flag it maintains from the
    notifications equals the player's [isPlaying], and the other session
    flags are untouched. *)
Theorem speaking_flag_tracks_player (evs : list event)
  (p : StreamAudioPlayer) (ss : SessionState) :
  onPlayStateChange p = true -> isSpeaking ss = isPlaying p ->
  isSpeaking (App.observe (snd (play evs p)) ss) = isPlaying (fst (play evs p))
  /\ isActive (App.observe (snd (play evs p)) ss) = isActive ss
  /\ isProcessing (App.observe (snd (play evs p)) ss) = isProcessing ss.
Proof.
  revert p ss. induction evs as [|ev rest IH]; intros p ss Hobs Hsync.
  - cbn. auto.
  - cbn [play].
    destruct (observe_fire ev p ss Hobs Hsync) as (H1 & H2 & H3 & H4).
    destruct (fire ev p) as [p1 e1]. cbn [fst snd] in *.
    specialize (IH p1 (App.observe e1 ss) H4 H1).
    destruct (play rest p1) as [p2 e2]. cbn [fst snd] in *.
    rewrite observe_app. destruct IH as (I1 & I2 & I3).
    repeat split; congruence.
Qed.

Lemma speaking_flag_tracks_player_witness :
  isSpeaking
    (App.observe
       (snd (play [Queue 1 false "AAA="; Queue 1 true "AAAA"; Ended 0]
                  (Player.new true)))
       App.idle)
  = isPlaying
      (fst (play [Queue 1 false "AAA="; Queue 1 true "AAAA"; Ended 0]
                 (Player.new true))).
Proof.
  apply (speaking_flag_tracks_player
           [Queue 1 false "AAA="; Queue 1 true "AAAA"; Ended 0]
           (Player.new true) App.idle); reflexivity.
Defined.

Lemma filter_remove_one (id : nat) (ns : list AudioBufferSourceNode) n :
  NoDup (List.map node_id ns) -> In n ns -> node_id n = id ->
  exists l1 l2,
    ns = l1 ++ n :: l2
    /\ List.filter (fun s => negb (Nat.eqb (node_id s) id)) ns = l1 ++ l2.
Proof.
  intros Hnd Hin Hid. induction ns as [|m ns IH]; [contradiction|].
  cbn [List.map] in Hnd. apply NoDup_cons in Hnd as [Hm Hnd].
  assert (Hother : forall x, In x ns -> node_id x <> node_id m).
  { intros x Hx E. apply Hm. rewrite <- E.
    apply list_elem_of_In, in_map, Hx. }
  destruct Hin as [->|Hin].
  - exists [], ns. split; [reflexivity|]. cbn [List.filter app].
    rewrite Hid, Nat.eqb_refl. cbn [negb].
    clear IH Hm Hnd. induction ns as [|x ns IH]; [reflexivity|].
    cbn [List.filter].
    destruct (Nat.eqb_spec (node_id x) id) as [E|_].
    + exfalso. apply (Hother x); [now left | congruence].
    + cbn [negb]. f_equal. apply IH. intros y Hy. apply Hother. now right.
  - destruct (IH Hnd Hin) as (l1 & l2 & -> & Hf).
    exists (m :: l1), l2. split; [reflexivity|]. cbn [List.filter app].
    destruct (Nat.eqb_spec (node_id m) id) as [E|_]; cbn [negb].
    + exfalso. apply (Hother n); [|congruence].
      apply in_or_app. right. now left.
    + now rewrite Hf.
Qed.

(** X9: when an active source ends, exactly that source leaves the
    active set and the others stay, in order; the observer is notified
    (with false) exactly when it was the last one. *)
Theorem onended_removes_exactly_one (p : StreamAudioPlayer)
  (n : AudioBufferSourceNode) :
  active_consistent p -> In n (sources p) ->
  exists l1 l2,
    sources p = l1 ++ n :: l2
    /\ sources (fst (onended (node_id n) p)) = l1 ++ l2
    /\ snd (onended (node_id n) p)
       = match l1 ++ l2 with [] => notify p false | _ => [] end
    /\ isPlaying (fst (onended (node_id n) p))
       = match l1 ++ l2 with [] => false | _ => true end.
Proof.
  intros (Hplay & Hnd & _) Hin.
  destruct (filter_remove_one (node_id n) (sources p) n Hnd Hin eq_refl)
    as (l1 & l2 & Hs & Hf).
  exists l1, l2. split; [exact Hs|].
  unfold onended. rewrite Hf.
  destruct (l1 ++ l2) as [|m rest] eqn:E; cbn; auto.
  repeat split. apply Hplay. rewrite Hs. destruct l1; discriminate.
Qed.

Lemma onended_removes_exactly_one_witness :
  let p := fst (play [Queue 1 false "AAA="; Queue 1 false "AAA="]
                     (Player.new true)) in
  exists l1 l2,
    sources p = l1 ++ {| node_id := 1;
                         buffer := {| numberOfChannels := 1; frames := 1;
                                      sampleRate := 24000;
                                      channels := [[Num (0 # 32768)]] |};
                         startTime := 24001 # 24000 |} :: l2
    /\ sources (fst (onended 1 p)) = l1 ++ l2.
Proof.
  intros p.
  destruct (onended_removes_exactly_one p
              {| node_id := 1;
                 buffer := {| numberOfChannels := 1; frames := 1;
                              sampleRate := 24000;
                              channels := [[Num (0 # 32768)]] |};
                 startTime := 24001 # 24000 |})
    as (l1 & l2 & H1 & H2 & _).
  - apply active_consistent_play, active_consistent_new.
  - right. left. reflexivity.
  - exists l1, l2. split; [exact H1 | exact H2].
Defined.

(** X10: once a chunk has been queued the player holds an output
    context, and it keeps that very context through every later call:
    [stop()] does not close or drop it. *)
Theorem output_context_kept (evs : list event) (p : StreamAudioPlayer)
  (t : Q) (susp : bool) (a : string) :
  audioContext (fst (fire (Queue t susp a) p)) <> None
  /\ audioContext (fst (play evs (fst (fire (Queue t susp a) p))))
     = audioContext (fst (fire (Queue t susp a) p))
  /\ (audioContext p = None ->
      audioContext (fst (fire (Queue t susp a) p))
      = Some {| ctx_sampleRate := OUTPUT_RATE |}).
Proof.
  assert (Hq : forall t susp a q,
             audioContext (fst (fire (Queue t susp a) q))
             = audioContext (fst (initContext susp q))).
  { intros t0 s0 a0 q. cbn [fire].
    destruct (queueAudio_cases t0 s0 a0 q)
      as [(e & _ & H)|(bs & b & _ & _ & _ & H)]; rewrite H; reflexivity. }
  assert (Hi : forall s0 q c, audioContext q = Some c ->
                              audioContext (fst (initContext s0 q)) = Some c).
  { intros s0 q c Hc. unfold initContext. now rewrite Hc. }
  assert (Hstep : forall ev q c, audioContext q = Some c ->
                                 audioContext (fst (fire ev q)) = Some c).
  { intros [t0 s0 a0|id|] q c Hc.
    - rewrite Hq. now apply Hi.
    - cbn [fire]. unfold onended. destruct (Nat.eqb _ 0); exact Hc.
    - exact Hc. }
  assert (Hplay : forall evs q c, audioContext q = Some c ->
                                  audioContext (fst (play evs q)) = Some c).
  { intros evs0. induction evs0 as [|ev rest IH]; intros q c Hc; [exact Hc|].
    cbn [play]. pose proof (Hstep ev q c Hc) as H1.
    destruct (fire ev q) as [q1 e1]. specialize (IH q1 c H1).
    destruct (play rest q1) as [q2 e2]. exact IH. }
  assert (Hsome : exists c, audioContext (fst (fire (Queue t susp a) p)) = Some c).
  { rewrite Hq. unfold initContext.
    destruct (audioContext p) as [c|] eqn:Ec; cbn [fst audioContext]; eauto. }
  destruct Hsome as [c Hc]. repeat split.
  - congruence.
  - rewrite Hc. now apply Hplay.
  - intros Hnone. rewrite Hq. unfold initContext. now rewrite Hnone.
Qed.

End PlayerInvariants.

(* ------------------------------------------------------------------ *)
(** ** The capture callback and the service around it                   *)
(* ------------------------------------------------------------------ *)

Section CaptureFacts.

Import Session Capture.

Lemma sumSquares_from acc xs :
  exists total,
    fold_left (fun a x => num_add a (num_mul x x)) (List.map Num xs) (Num acc)
    = Num total
    /\ (total == acc + sum_sq xs)%Q.
Proof.
  revert acc. induction xs as [|x xs IH]; intros acc; cbn.
  - exists acc. split; [reflexivity | ring].
  - destruct (IH (acc + x * x)%Q) as (total & -> & E).
    exists total. split; [reflexivity|]. rewrite E. ring.
Qed.

Lemma sum_sq_bounds xs :
  Forall (fun q => (-1 <= q)%Q /\ (q <= 1)%Q) xs ->
  (0 <= sum_sq xs)%Q /\ (sum_sq xs <= inject_Z (Z.of_nat (length xs)))%Q.
Proof.
  induction 1 as [|x xs [Hlo Hhi] _ [I1 I2]]; cbn [sum_sq length].
  - split; discriminate.
  - rewrite Nat2Z.inj_succ, <- Z.add_1_r, inject_Z_plus.
    change (inject_Z 1) with 1%Q. split; nra.
Qed.

Lemma sum_sq_zero xs : Forall (fun q => (q == 0)%Q) xs -> (sum_sq xs == 0)%Q.
Proof.
  induction 1 as [|x xs Hx _ IH]; cbn [sum_sq]; [reflexivity|].
  rewrite Hx, IH. ring.
Qed.

(** X11: for a non-empty block of samples between -1 and 1 the number
    whose square root is reported as the volume lies between 0 and 1 (so
    the volume does), and it is 0 for a silent block.  For an empty block
    it is NaN. *)
Theorem volume_in_unit_interval (xs : list Q) :
  xs <> [] ->
  Forall (fun q => (-1 <= q)%Q /\ (q <= 1)%Q) xs ->
  exists m,
    meanSquare (List.map Num xs) = Num m
    /\ (0 <= m)%Q /\ (m <= 1)%Q
    /\ (Forall (fun q => (q == 0)%Q) xs -> (m == 0)%Q)
    /\ meanSquare [] = NaN.
Proof.
  intros Hne Hxs. unfold meanSquare, sumSquares. rewrite length_map.
  destruct (sumSquares_from 0 xs) as (total & -> & E).
  destruct (sum_sq_bounds xs Hxs) as [B1 B2].
  destruct xs as [|x xs]; [congruence|]. cbn [List.map].
  set (n := inject_Z (Z.of_nat (length (x :: xs)))) in *.
  assert (Hn : (0 < n)%Q).
  { unfold n. change 0%Q with (inject_Z 0). rewrite <- Zlt_Qlt. cbn. lia. }
  clearbody n.
  exists (total / n)%Q. repeat split.
  - apply Qle_shift_div_l; [exact Hn|]. lra.
  - apply Qle_shift_div_r; [exact Hn|]. lra.
  - intros Hz. pose proof (sum_sq_zero _ Hz) as Z0.
    assert (T0 : (total == 0)%Q) by lra.
    rewrite T0. unfold Qdiv. ring.
Qed.

Lemma volume_in_unit_interval_witness :
  exists m,
    meanSquare (List.map Num [(1 # 2)%Q; (-1)%Q; 0%Q]) = Num m
    /\ (0 <= m)%Q /\ (m <= 1)%Q.
Proof.
  destruct (volume_in_unit_interval [(1 # 2)%Q; (-1)%Q; 0%Q])
    as (m & Hm & H0 & H1 & _).
  - discriminate.
  - repeat constructor; discriminate.
  - exists m. auto.
Defined.

Ltac break_lifecycle l :=
  let s := fresh "s" in
  destruct l as [s ?];
  destruct s as [[?|] [?|] [?|] [?|] [|]].

Lemma step_well_formed l e l' eff :
  well_formed l = true -> step l e = Some (l', eff) ->
  well_formed l' = true.
Proof.
  destruct e as [[|]| | |[|]| | | | | | |m];
    break_lifecycle l; destruct pc0; cbn; try discriminate;
    intros _ [= <- <-]; reflexivity.
Qed.

Lemma run_well_formed evs :
  forall l l' tr,
    well_formed l = true -> run evs l = Some (l', tr) ->
    well_formed l' = true.
Proof.
  induction evs as [|e rest IH]; intros l l' tr W; cbn.
  - now intros [= <- <-].
  - destruct (step l e) as [[l1 eff1]|] eqn:S; [|discriminate].
    destruct (run rest l1) as [[l2 eff2]|] eqn:R; [|discriminate].
    intros [= <- <-]. eapply IH; [|exact R]. eapply step_well_formed; eauto.
Qed.

(** X12: in every state a service instance can reach, the script
    processor exists only while the instance is connected, the session
    is open and both the microphone stream and the input context are
    held; the capture callback then has everything it uses. *)
Theorem processor_only_while_connected (evs : list event)
  (l : lifecycle) (tr : list Session.effect) :
  run evs init = Some (l, tr) ->
  held ScriptProcessor (svc l) = true ->
  isConnected (svc l) = true
  /\ activeSession (svc l) <> None
  /\ held Microphone (svc l) = true
  /\ held InputContext (svc l) = true
  /\ pc l = Finished.
Proof.
  intros R Hp.
  pose proof (run_well_formed evs init l tr eq_refl R) as W.
  revert W Hp. break_lifecycle l; destruct pc0; cbn; try discriminate;
    intros _ _; repeat split; discriminate.
Qed.

Lemma processor_only_while_connected_witness :
  isConnected
    {| activeSession := Some liveSession;
       inputAudioContext := Some audioContextHandle;
       stream := Some mediaStream;
       processor := Some scriptProcessorNode;
       isConnected := true |} = true.
Proof.
  apply (processor_only_while_connected
           [Connect true; MicGranted; SessionOpened true; Resumed]
           {| svc := {| activeSession := Some liveSession;
                        inputAudioContext := Some audioContextHandle;
                        stream := Some mediaStream;
                        processor := Some scriptProcessorNode;
                        isConnected := true |};
              pc := Finished |}
           [Session.Acquire InputContext; Session.Acquire Microphone;
            Session.Acquire ScriptProcessor]); reflexivity.
Defined.

Lemma step_closed l e l' eff :
  closed l = true -> step l e = Some (l', eff) ->
  closed l' = true
  /\ count (Session.Acquire ScriptProcessor) eff = O
  /\ count (Session.Acquire InputContext) eff = O.
Proof.
  destruct e as [[|]| | |[|]| | | | | | |m].
  all: try (break_lifecycle l; destruct pc0; cbn; try discriminate;
            intros _ [= <- <-]; repeat split; reflexivity).
  break_lifecycle l; destruct pc0; cbn; try discriminate;
    intros _ [= <- <-];
    (split; [reflexivity|]); split; apply handleMessage_devices.
Qed.

Lemma run_closed evs :
  forall l l' tr,
    closed l = true -> run evs l = Some (l', tr) ->
    closed l' = true
    /\ count (Session.Acquire ScriptProcessor) tr = O
    /\ count (Session.Acquire InputContext) tr = O.
Proof.
  induction evs as [|e rest IH]; intros l l' tr C; cbn.
  - intros [= <- <-]. auto.
  - destruct (step l e) as [[l1 eff1]|] eqn:S; [|discriminate].
    destruct (run rest l1) as [[l2 eff2]|] eqn:R; [|discriminate].
    intros [= <- <-].
    destruct (step_closed _ _ _ _ C S) as (C1 & A1 & B1).
    destruct (IH _ _ _ C1 R) as (C2 & A2 & B2).
    rewrite !count_app, A1, A2, B1, B2. auto.
Qed.

Lemma teardown_closed l e l' eff :
  tears_down l e = true -> step l e = Some (l', eff) ->
  pc l' <> NotStarted -> closed l' = true.
Proof.
  destruct e as [[|]| | |[|]| | | | | | |m];
    break_lifecycle l; destruct pc0; cbn; try discriminate;
    intros _ [= <- <-]; cbn; congruence.
Qed.

(** X13: a teardown is final.  Once an event has run [disconnect()] on
    an instance whose [connect()] was called, whatever happens
    afterwards (the microphone being granted, the session opening, more
    disconnects) the instance stays disconnected, never creates the
    script processor or another input context, and a capture callback
    still in flight sends nothing and reports no volume. *)
Theorem teardown_is_final (l : lifecycle) (e : event) (l1 : lifecycle)
  (eff : list Session.effect) (evs : list event) (l2 : lifecycle)
  (tr : list Session.effect) :
  tears_down l e = true -> step l e = Some (l1, eff) ->
  pc l1 <> NotStarted ->
  run evs l1 = Some (l2, tr) ->
  isConnected (svc l2) = false
  /\ held ScriptProcessor (svc l2) = false
  /\ count (Session.Acquire ScriptProcessor) tr = O
  /\ count (Session.Acquire InputContext) tr = O
  /\ (forall inputData, onaudioprocess (svc l2) inputData = []).
Proof.
  intros T S N R.
  pose proof (teardown_closed _ _ _ _ T S N) as C.
  destruct (run_closed _ _ _ _ C R) as (C2 & A & B).
  assert (Hc : isConnected (svc l2) = false
               /\ held ScriptProcessor (svc l2) = false).
  { revert C2. clear. break_lifecycle l2; destruct pc0; cbn;
      try discriminate; auto. }
  destruct Hc as [Hc Hp]. repeat split; auto.
  intros inputData. unfold onaudioprocess. now rewrite Hc.
Qed.

Lemma teardown_is_final_witness :
  isConnected
    {| activeSession := Some liveSession; inputAudioContext := None;
       stream := Some mediaStream; processor := None;
       isConnected := false |} = false
  /\ count (Session.Acquire ScriptProcessor)
       [Session.Acquire Microphone; SessionClose] = O.
Proof.
  destruct (teardown_is_final
              {| svc := {| activeSession := None;
                           inputAudioContext := Some audioContextHandle;
                           stream := None; processor := None;
                           isConnected := true |};
                 pc := AwaitingMic |}
              Disconnect
              {| svc := Session.new; pc := AwaitingMic |}
              [Session.Release InputContext; Call OnClose]
              [MicGranted; SessionOpened false]
              {| svc := {| activeSession := Some liveSession;
                           inputAudioContext := None;
                           stream := Some mediaStream; processor := None;
                           isConnected := false |};
                 pc := Finished |}
              [Session.Acquire Microphone; SessionClose])
    as (H1 & _ & H2 & _); try reflexivity; try discriminate.
  split; [exact H1 | exact H2].
Defined.

End CaptureFacts.

(* ------------------------------------------------------------------ *)
(** ** The application: aggregation as a whole, display, teardown       *)
(* ------------------------------------------------------------------ *)

Section AppFacts.

Import App AppRun.

Lemma string_append_assoc (a b c : string) :
  ((a ++ b) ++ c = a ++ (b ++ c))%string.
Proof. induction a as [|ch a IH]; cbn; [reflexivity | now rewrite IH]. Qed.

Lemma runs_head s t rest :
  exists t' more, runs ((s, t) :: rest) = (s, t') :: more.
Proof.
  cbn [runs]. destruct (runs rest) as [|[s' t'] more]; [eauto|].
  destruct (Speaker_eqb s s'); eauto.
Qed.

Lemma runs_same s acc t rest :
  runs ((s, acc) :: (s, t) :: rest) = runs ((s, (acc ++ t)%string) :: rest).
Proof.
  cbn [runs]. destruct (runs rest) as [|[s' t'] more].
  - replace (Speaker_eqb s s) with true by (now destruct s). reflexivity.
  - destruct (Speaker_eqb s s') eqn:E.
    + replace (Speaker_eqb s s) with true by (now destruct s).
      now rewrite string_append_assoc.
    + replace (Speaker_eqb s s) with true by (now destruct s). reflexivity.
Qed.

Lemma runs_other s acc s' t rest :
  Speaker_eqb s s' = false ->
  runs ((s, acc) :: (s', t) :: rest) = (s, acc) :: runs ((s', t) :: rest).
Proof.
  intros E. destruct (runs_head s' t rest) as (t' & more & H).
  change (runs ((s, acc) :: (s', t) :: rest))
    with (match runs ((s', t) :: rest) with
          | (s'', t'') :: more =>
              if Speaker_eqb s s'' then (s, (acc ++ t'')%string) :: more
              else (s, acc) :: (s'', t'') :: more
          | [] => [(s, acc)]
          end).
  rewrite H, E. reflexivity.
Qed.

Lemma history_commit e who t st :
  history (addMessageToHistory e who t st)
  = history st ++ (if blank t then [] else [(who, t)]).
Proof.
  unfold addMessageToHistory, blank. destruct (falsy (trim t)).
  - now rewrite app_nil_r.
  - unfold history. cbn. now rewrite List.map_app.
Qed.

Lemma deltas_open e ds :
  forall st s acc,
    currentTranscript st = Some (s, acc) ->
    history (deltas e ds st)
    = history st
        ++ List.filter (fun r => negb (blank (snd r)))
                       (removelast (runs ((s, acc) :: ds)))
    /\ currentTranscript (deltas e ds st) = final (runs ((s, acc) :: ds)).
Proof.
  induction ds as [|[who t] rest IH]; intros st s acc Hcur.
  - cbn. rewrite app_nil_r. auto.
  - cbn [deltas]. unfold onTranscriptUpdate. rewrite Hcur.
    destruct (Speaker_eqb s who) eqn:E.
    + apply Speaker_eqb_eq in E. subst who.
      rewrite runs_same.
      apply (IH (setCurrentTranscript (Some (s, (acc ++ t)%string)) st)).
      reflexivity.
    + rewrite (runs_other _ _ _ _ _ E).
      destruct (runs_head who t rest) as (t' & more & H).
      destruct (IH (setCurrentTranscript (Some (who, t))
                      (addMessageToHistory e s acc st)) who t eq_refl)
        as [I1 I2].
      rewrite I1, I2, H. cbn [removelast final List.filter snd].
      split; [|reflexivity].
      change (history (setCurrentTranscript (Some (who, t))
                         (addMessageToHistory e s acc st)))
        with (history (addMessageToHistory e s acc st)).
      rewrite history_commit, <- app_assoc.
      destruct (blank acc); reflexivity.
Qed.

Lemma deltas_from_none e ds st :
  currentTranscript st = None ->
  history (deltas e ds st)
  = history st
      ++ List.filter (fun r => negb (blank (snd r))) (removelast (runs ds))
  /\ currentTranscript (deltas e ds st) = final (runs ds).
Proof.
  intros Hnone. destruct ds as [|[who t] rest].
  - cbn. rewrite app_nil_r. auto.
  - cbn [deltas]. unfold onTranscriptUpdate. rewrite Hnone.
    apply (deltas_open e rest (setCurrentTranscript (Some (who, t)) st)).
    reflexivity.
Qed.

(** X14: the aggregator as a whole.  Starting with no open utterance,
    after any sequence of fragments the history has grown by the maximal
    same-speaker runs of the sequence, texts concatenated, in order, the
    last run excepted and the runs of white space only left out; the
    last run is the open utterance. *)
Theorem deltas_group_by_speaker (e : env) (ds : list (Speaker * string))
  (st : state) :
  currentTranscript st = None ->
  history (deltas e ds st)
  = history st
      ++ List.filter (fun r => negb (blank (snd r))) (removelast (runs ds))
  /\ currentTranscript (deltas e ds st) = final (runs ds).
Proof. apply deltas_from_none. Qed.

Lemma deltas_group_by_speaker_witness :
  let e := {| now_id := 5; now_timestamp := 6; currentTime := 0;
              suspended := false |} in
  history (deltas e [(Coach, "Hel"); (Coach, "lo"); (User, " ");
                     (Coach, "Go"); (User, "ok")]%string initial)
  = history initial
      ++ List.filter (fun r => negb (blank (snd r)))
           (removelast (runs [(Coach, "Hel"); (Coach, "lo"); (User, " ");
                              (Coach, "Go"); (User, "ok")]%string)).
Proof.
  intros e.
  apply (deltas_group_by_speaker e
           [(Coach, "Hel"); (Coach, "lo"); (User, " ");
            (Coach, "Go"); (User, "ok")]%string initial).
  reflexivity.
Defined.

(** X17: the coach's line does not flicker when the user starts to
    speak.  While the coach's utterance is open, its text is displayed;
    when the first fragment of the user arrives, the same text is still
    displayed (now from the history), unless it was white space only, in
    which case the display falls back to the coach's last committed
    message. *)
Theorem coach_text_survives_speaker_change (e : env) (st : state)
  (acc t : string) (isFinal : bool) :
  currentTranscript st = Some (Coach, acc) ->
  displayCoachText st = Some acc
  /\ displayCoachText (onTranscriptUpdate e Coach t isFinal st)
     = Some (acc ++ t)%string
  /\ displayCoachText (onTranscriptUpdate e User t isFinal st)
     = if blank acc
       then displayCoachText (setCurrentTranscript None st)
       else Some acc.
Proof.
  intros Hcur. unfold displayCoachText at 1. rewrite Hcur.
  split; [reflexivity|]. unfold onTranscriptUpdate. rewrite Hcur.
  split; [reflexivity|]. cbn [Speaker_eqb].
  unfold displayCoachText, addMessageToHistory, blank.
  destruct (falsy (trim acc)); cbn [currentTranscript setCurrentTranscript messages];
    [reflexivity|].
  rewrite rev_app_distr. reflexivity.
Qed.

Lemma coach_text_survives_speaker_change_witness :
  let e := {| now_id := 5; now_timestamp := 6; currentTime := 0;
              suspended := false |} in
  let st := setCurrentTranscript (Some (Coach, "Sit up."%string)) initial in
  displayCoachText (onTranscriptUpdate e User "Yes" false st)
  = if blank "Sit up." then displayCoachText (setCurrentTranscript None st)
    else Some "Sit up."%string.
Proof.
  intros e st.
  apply (coach_text_survives_speaker_change e st "Sit up." "Yes" false).
  reflexivity.
Defined.

Lemma joined_app l1 l2 : joined (l1 ++ l2) = (joined l1 ++ joined l2)%string.
Proof.
  unfold joined. induction l1 as [|t l1 IH]; cbn [app fold_right];
    [reflexivity|].
  rewrite IH. symmetry. apply string_append_assoc.
Qed.

Lemma joined_runs ds :
  joined (List.map snd (runs ds)) = joined (List.map snd ds).
Proof.
  unfold joined. induction ds as [|[s t] rest IH]; [reflexivity|].
  cbn [runs List.map snd fold_right]. rewrite <- IH.
  destruct (runs rest) as [|[s' t'] more]; [reflexivity|].
  destruct (Speaker_eqb s s'); cbn [List.map snd fold_right]; [|reflexivity].
  apply string_append_assoc.
Qed.

Lemma removelast_final {A} (l : list A) :
  removelast l ++ match final l with Some x => [x] | None => [] end = l.
Proof.
  induction l as [|a [|b l] IH]; [reflexivity | reflexivity |].
  change (a :: (removelast (b :: l)
                  ++ match final (b :: l) with Some x => [x] | None => [] end)
          = a :: b :: l).
  now rewrite IH.
Qed.

Lemma filter_all {A} (P : A -> bool) l :
  Forall (fun x => P x = true) l -> List.filter P l = l.
Proof.
  induction 1 as [|x l Hx _ IH]; cbn; [reflexivity|]. now rewrite Hx, IH.
Qed.

(** X16: nothing that is received is lost or reordered on screen, as
    long as no utterance but the open one is white space only: the texts
    of the transcript panel (history, then the open utterance), put one
    after the other, are the fragments received, put one after the
    other. *)
Theorem transcript_shows_all_text (e : env) (now : Z)
  (ds : list (Speaker * string)) :
  Forall (fun r => blank (snd r) = false) (removelast (runs ds)) ->
  joined (List.map text (transcriptMessages now (deltas e ds initial)))
  = joined (List.map snd ds).
Proof.
  intros Hnb.
  destruct (deltas_from_none e ds initial eq_refl) as [Hh Hc].
  unfold transcriptMessages. rewrite List.map_app, Hc.
  assert (Ht : List.map text (messages (deltas e ds initial))
               = List.map snd (history (deltas e ds initial))).
  { unfold history. rewrite List.map_map. reflexivity. }
  rewrite Ht, Hh. cbn [history initial messages List.map app].
  rewrite filter_all.
  2:{ eapply Forall_impl; [exact Hnb|]. cbn. intros r ->. reflexivity. }
  rewrite <- joined_runs.
  rewrite <- (removelast_final (runs ds)) at 3.
  rewrite List.map_app. destruct (final (runs ds)) as [[s t]|]; reflexivity.
Qed.

Lemma transcript_shows_all_text_witness :
  let e := {| now_id := 5; now_timestamp := 6; currentTime := 0;
              suspended := false |} in
  joined (List.map text
            (transcriptMessages 7
               (deltas e [(Coach, "Hel"); (Coach, "lo"); (User, "ok ");
                          (User, "then")]%string initial)))
  = joined (List.map snd [(Coach, "Hel"); (Coach, "lo"); (User, "ok ");
                          (User, "then")]%string).
Proof.
  intros e.
  apply (transcript_shows_all_text e 7
           [(Coach, "Hel"); (Coach, "lo"); (User, "ok ");
            (User, "then")]%string).
  repeat constructor.
Defined.

Lemma grows_refl st st' : messages st' = messages st -> grows st st'.
Proof. intros H. exists []. rewrite app_nil_r. auto. Qed.

Lemma grows_trans a b c : grows a b -> grows b c -> grows a c.
Proof.
  intros (x & Hx & Fx) (y & Hy & Fy). exists (x ++ y).
  rewrite Hy, Hx, <- app_assoc. split; [reflexivity|].
  apply Forall_app. auto.
Qed.

Lemma addMessageToHistory_grows e who t st :
  grows st (addMessageToHistory e who t st).
Proof.
  unfold addMessageToHistory. destruct (falsy (trim t)) eqn:E.
  - now apply grows_refl.
  - eexists. split; [reflexivity|]. constructor; [exact E | constructor].
Qed.

Lemma callback_grows e c st : grows st (callback e c st).
Proof.
  destruct c as [d|who t f|]; cbn [callback].
  - now apply grows_refl.
  - unfold onTranscriptUpdate.
    destruct (currentTranscript st) as [[s acc]|]; [|now apply grows_refl].
    destruct (Speaker_eqb s who); [now apply grows_refl|].
    eapply grows_trans; [apply addMessageToHistory_grows|].
    now apply grows_refl.
  - now apply grows_refl.
Qed.

Lemma deliver_grows e effs : forall st, grows st (deliver e effs st).
Proof.
  unfold deliver. induction effs as [|eff effs IH]; intros st; cbn [fold_left].
  - now apply grows_refl.
  - eapply grows_trans; [|apply IH].
    destruct eff; try (now apply grows_refl). apply callback_grows.
Qed.

Lemma act_grows e a st :
  match a with
  | StartSession _ => messages (act e a st) = []
  | _ => grows st (act e a st)
  end.
Proof.
  destruct a as [ok| |ev|id]; cbn [act].
  - destruct ok; reflexivity.
  - unfold handleEndSession.
    destruct (liveSession st) as [l|]; [|now apply grows_refl].
    pose proof (deliver_disconnect e (Session.svc l) st) as D.
    destruct (Session.disconnect (Session.svc l)) as [s effs].
    cbn [snd] in D. rewrite D. now apply grows_refl.
  - unfold transport. destruct (liveSession st) as [l|]; [|now apply grows_refl].
    destruct (Session.step l ev) as [[l' effs]|]; [|now apply grows_refl].
    eapply grows_trans; [|apply deliver_grows]. now apply grows_refl.
  - now apply grows_refl.
Qed.

(** X15: whatever the user and the transport do, no committed message
    is white space only, and as long as no new session is started the
    history only grows at its end: committed messages are never changed,
    removed or reordered.  Starting a session empties the history. *)
Theorem history_append_only (steps : list (env * action)) (st : state) :
  Forall (fun m => blank (text m) = false) (messages st) ->
  Forall (fun m => blank (text m) = false) (messages (acts steps st))
  /\ (same_session steps = true -> grows st (acts steps st))
  /\ (forall e ok, messages (act e (StartSession ok) st) = []).
Proof.
  intros Hst. split; [|split].
  - revert st Hst. induction steps as [|[e a] rest IH]; intros st Hst;
      [exact Hst|].
    cbn [acts]. apply IH. pose proof (act_grows e a st) as G.
    destruct a as [ok| |ev|id];
      try (destruct G as (added & -> & Hadd); apply Forall_app; auto).
    rewrite G. constructor.
  - revert st Hst. induction steps as [|[e a] rest IH]; intros st Hst Hss.
    + now apply grows_refl.
    + cbn [acts]. pose proof (act_grows e a st) as G.
      destruct a as [ok| |ev|id]; cbn [same_session] in Hss;
        try discriminate;
        (eapply grows_trans; [exact G|]; apply IH; [|exact Hss];
         destruct G as (added & -> & Hadd); apply Forall_app; auto).
  - intros e ok. apply (act_grows e (StartSession ok) st).
Qed.

Lemma history_append_only_witness :
  let e := {| now_id := 5; now_timestamp := 6; currentTime := 0;
              suspended := false |} in
  let say who t :=
    Transport
      (Session.ServerMessage
         {| Session.inlineData := None;
            Session.outputTranscription :=
              match who with Coach => Some t | User => None end;
            Session.inputTranscription :=
              match who with User => Some t | Coach => None end |}) in
  let st := act e (StartSession true) initial in
  grows st
    (acts [(e, Transport Session.MicGranted);
           (e, Transport (Session.SessionOpened false));
           (e, say Coach "Begin."%string); (e, say User "Well"%string);
           (e, say Coach "Louder."%string); (e, EndSession)] st).
Proof.
  intros e say st.
  apply (history_append_only
           [(e, Transport Session.MicGranted);
            (e, Transport (Session.SessionOpened false));
            (e, say Coach "Begin."%string); (e, say User "Well"%string);
            (e, say Coach "Louder."%string); (e, EndSession)] st).
  - constructor.
  - reflexivity.
Defined.

Lemma observe_stop_idle p :
  observe (snd (Player.stop p)) idle = idle.
Proof.
  unfold Player.stop, Player.notify. cbn [snd].
  unfold observe. rewrite fold_left_app.
  assert (H : forall l ss0,
            fold_left
              (fun ss eff =>
                 match eff with
                 | Player.PlayStateChange b =>
                     {| isActive := isActive ss;
                        isProcessing := isProcessing ss; isSpeaking := b |}
                 | _ => ss
                 end)
              (List.map (fun s => Player.SourceStop (Player.node_id s)) l) ss0
            = ss0).
  { induction l as [|n l IH]; intros ss0; cbn; auto. }
  rewrite H. destruct (Player.onPlayStateChange p); reflexivity.
Qed.

Lemma teardown_step l ev :
  Session.tears_down l ev = true ->
  exists s0 c,
    Session.step l ev
    = Some ({| Session.svc := fst (Session.disconnect s0); Session.pc := c |},
            snd (Session.disconnect s0)).
Proof.
  unfold Session.tears_down, Session.step, Session.teardown.
  destruct ev as [[|]| | |[|]| | | | | | |m]; destruct (Session.pc l) eqn:P;
    try discriminate; intros T; cbn [Session.wired negb Session.svc];
    try (destruct (Session.createPipeline (Session.svc l)) as [x|[s2 eff2]];
         [|discriminate]);
    match goal with
    | |- context [Session.disconnect ?s0] =>
        exists s0; destruct (Session.disconnect s0) as [s1 eff1]; eauto
    end.
Qed.

(** X18: every teardown path ends the same way for the user.  Whatever
    event runs [disconnect()] on the current service instance (remote
    close, transport error, a failure while connecting), afterwards the
    session flags are all false, playback is stopped with an empty active
    set and the cursor at 0, and history and open utterance are as they
    were. *)
Theorem teardown_leaves_app_idle (e : env) (ev : Session.event)
  (st : state) (l : Session.lifecycle) :
  liveSession st = Some l -> Session.tears_down l ev = true ->
  let st' := transport e ev st in
  sessionState st' = idle
  /\ Player.sources (audioPlayer st') = []
  /\ Player.isPlaying (audioPlayer st') = false
  /\ Player.nextStartTime (audioPlayer st') = 0%Q
  /\ messages st' = messages st
  /\ currentTranscript st' = currentTranscript st.
Proof.
  intros Hl T. unfold transport. rewrite Hl.
  destruct (teardown_step l ev T) as (s0 & c & ->).
  rewrite deliver_disconnect. cbn zeta.
  unfold onClose, stopPlayer, withPlayer.
  cbn [sessionState audioPlayer setSessionState setLiveSession messages
       currentTranscript fst].
  rewrite observe_stop_idle. repeat split.
Qed.

Lemma teardown_leaves_app_idle_witness :
  let e := {| now_id := 5; now_timestamp := 6; currentTime := 2;
              suspended := false |} in
  let audio := {| Session.inlineData := Some "AAA="%string;
                  Session.outputTranscription := None;
                  Session.inputTranscription := None |} in
  let st :=
    acts [(e, StartSession true); (e, Transport Session.MicGranted);
          (e, Transport (Session.SessionOpened false));
          (e, Transport (Session.ServerMessage audio))] initial in
  isSpeaking (sessionState st) = true
  /\ sessionState (transport e Session.TransportError st) = idle
  /\ Player.sources (audioPlayer (transport e Session.TransportError st)) = [].
Proof.
  intros e audio st. split; [reflexivity|].
  destruct (teardown_leaves_app_idle e Session.TransportError st
              {| Session.svc :=
                   {| Session.activeSession := Some Session.liveSession;
                      Session.inputAudioContext :=
                        Some Session.audioContextHandle;
                      Session.stream := Some Session.mediaStream;
                      Session.processor := Some Session.scriptProcessorNode;
                      Session.isConnected := true |};
                 Session.pc := Session.Finished |})
    as (H1 & H2 & _); [reflexivity | reflexivity |].
  split; [exact H1 | exact H2].
Defined.

(** X19: ending a session is idempotent and always leaves the same
    picture: no service instance, all session flags false, no open
    utterance, playback stopped with the cursor at 0.  Ending it again,
    at whatever time, changes nothing. *)
Theorem handleEndSession_idempotent (e e' : env) (st : state) :
  liveSession (handleEndSession e st) = None
  /\ sessionState (handleEndSession e st) = idle
  /\ currentTranscript (handleEndSession e st) = None
  /\ Player.sources (audioPlayer (handleEndSession e st)) = []
  /\ Player.isPlaying (audioPlayer (handleEndSession e st)) = false
  /\ Player.nextStartTime (audioPlayer (handleEndSession e st)) = 0%Q
  /\ handleEndSession e' (handleEndSession e st) = handleEndSession e st.
Proof.
  assert (Hnone : forall e0 st0, liveSession st0 = None ->
            handleEndSession e0 st0
            = setCurrentTranscript None (setSessionState idle (stopPlayer st0))).
  { intros e0 st0 H. unfold handleEndSession. now rewrite H. }
  assert (Hshape : exists st1,
            handleEndSession e st
            = setCurrentTranscript None (setSessionState idle (stopPlayer st1))
            /\ liveSession st1 = None).
  { unfold handleEndSession. destruct (liveSession st) as [l|] eqn:El.
    - pose proof (deliver_disconnect e (Session.svc l) st) as D.
      destruct (Session.disconnect (Session.svc l)) as [s effs].
      cbn [snd] in D. rewrite D. eexists. split; reflexivity.
    - exists st. auto. }
  destruct Hshape as (st1 & -> & H1).
  repeat split; auto.
  rewrite Hnone by (cbn; exact H1). reflexivity.
Qed.

End AppFacts.

(* ------------------------------------------------------------------ *)
(** ** The camera preview *)
(* ------------------------------------------------------------------ *)

Section CameraFacts.

Import Camera.

Lemma stops_app tr1 tr2 : stops (tr1 ++ tr2) = (stops tr1 + stops tr2)%nat.
Proof.
  induction tr1 as [|x tr1 IH]; [reflexivity|].
  destruct x; cbn [app stops]; rewrite IH; reflexivity.
Qed.

Lemma step_consistent c ev c' eff n :
  consistent c n = true -> step c ev = Some (c', eff) ->
  consistent c' (n + stops eff) = true.
Proof.
  destruct c as [s p m a err]. unfold consistent, step, videoRef_current,
    setError. cbn [stream pending mounted streamActive error].
  intros H E.
  destruct ev, s, p, m, a, err; cbn in H; try discriminate;
    apply Nat.eqb_eq in H; subst n;
    cbn in E; try discriminate; injection E as <- <-; reflexivity.
Qed.

Lemma run_consistent evs : forall c n c' tr,
  consistent c n = true -> run evs c = Some (c', tr) ->
  consistent c' (n + stops tr) = true.
Proof.
  induction evs as [|ev rest IH]; intros c n c' tr H R; cbn [run] in R.
  - injection R as <- <-. cbn [stops]. now rewrite Nat.add_0_r.
  - destruct (step c ev) as [[c1 eff1]|] eqn:E; [|discriminate].
    destruct (run rest c1) as [[c2 eff2]|] eqn:R2; [|discriminate].
    injection R as <- <-. rewrite stops_app, Nat.add_assoc.
    eapply IH; [|exact R2]. eapply step_consistent; eauto.
Qed.

(** X20: the camera is switched off exactly when the permission was
    granted before the component unmounted.  After any sequence of
    events, the tracks have been stopped once if the preview was showing
    and the component is gone, and never otherwise; a stream that arrives
    after the unmount is held with its tracks running, and no later event
    stops them. *)
Theorem camera_stopped_iff_granted_while_mounted (evs : list event)
  (c : UserCamera) (tr : list effect) :
  run evs (fst mount) = Some (c, tr) ->
  stops tr = (if streamActive c && negb (mounted c) then 1 else 0)%nat
  /\ (stream c = true -> streamActive c = false ->
      mounted c = false /\ stops tr = O).
Proof.
  intros R.
  pose proof (run_consistent evs (fst mount) 0 c tr eq_refl R) as H.
  cbn [Nat.add] in H. unfold consistent in H.
  apply andb_prop in H. destruct H as [H Hn].
  apply andb_prop in H. destruct H as [_ Hm].
  apply Nat.eqb_eq in Hn. split; [exact Hn|].
  intros Hs Ha. rewrite Hs, Ha in Hm. cbn in Hm.
  rewrite Hn, Ha. cbn. split; [|reflexivity].
  now apply negb_true_iff in Hm.
Qed.

Lemma camera_stopped_iff_granted_while_mounted_witness :
  let c := {| stream := true; pending := false; mounted := false;
              streamActive := false; error := None |} in
  run [Unmount; Granted] (fst mount) = Some (c, [])
  /\ (stream c = true -> streamActive c = false ->
      mounted c = false /\ stops [] = O).
Proof.
  intros c. split; [reflexivity|].
  apply (camera_stopped_iff_granted_while_mounted [Unmount; Granted] c []).
  reflexivity.
Defined.

End CameraFacts.
